(** * arc_unpacker: image decoders of the PGD, TGA and ACD formats

    A shallow embedding of the decoding routines of
    [fmt/amuse_craft/pgd_image_decoder.cc] (back-reference decompressor,
    planar filter and delta line filter),
    [fmt/truevision/tga_image_decoder.cc] (run-length decoder and
    recognition probe) and [fmt/fc01/acd_image_decoder.cc] (recognition
    probe and pixel code), together with the properties the
    specification states about them.

    Bytes are integers of [Z] in the range [0, 256); buffers are lists
    of bytes indexed by [nat], updated in place with stdpp's list insert;
    C++ exceptions are the [Throw] outcome of a small error monad. *)

From Stdlib Require Import ZArith Lia Bool.
From stdpp Require Import base numbers list strings.

Local Open Scope Z_scope.

(** ** Outcomes and exceptions *)

(** The exception classes of [err.h] that the modelled routines raise. *)
Inductive error : Type :=
  | EofError
  | BadDataOffsetError
  | BadDataSizeError
  | CorruptDataError.

(** The outcome of a call: a value, a raised exception, or [OutOfFuel]
    when the bound on loop iterations given to the model is used up (the
    C++ loops carry no such bound; the theorems below show the bound the
    model passes is never reached). *)
Inductive result (A : Type) : Type :=
  | Ok (a : A)
  | Throw (e : error)
  | OutOfFuel.
Arguments Ok {A} a.
Arguments Throw {A} e.
Arguments OutOfFuel {A}.

#[global] Instance result_ret : MRet result := @Ok.

#[global] Instance result_bind : MBind result := fun A B k r =>
  match r with
  | Ok a => k a
  | Throw e => Throw e
  | OutOfFuel => OutOfFuel
  end.

Definition raises {A : Type} (r : result A) : bool :=
  match r with
  | Throw _ => true
  | _ => false
  end.

(** A byte is an integer in [0, 256); [u8] is the truncation of a C++
    [int] stored into a [u8]. *)
Definition is_byte (b : Z) : Prop := 0 <= b < 256.
Definition u8 (z : Z) : Z := z mod 256.

(** ** The byte stream *)

Module IO.

(** Modelled from the spec: the byte-stream abstraction ([io::IO],
    [io::BufferedIO]) is not part of these sources.  It is a buffer with
    a read position; [seek] and [read] past the end of the buffer raise
    [EofError] and leave no partial result; multi-byte integers are
    little-endian. *)
Record t : Type := mk { buffer : list Z; pos : nat }.

Definition of_bytes (b : list Z) : t := mk b 0.

Definition size (io : t) : nat := length (buffer io).

Definition remaining (io : t) : nat := (size io - pos io)%nat.

(** The bytes not read yet, and the stream with [n] more bytes read. *)
Definition unread (io : t) : list Z := drop (pos io) (buffer io).

Definition advance (n : nat) (io : t) : t := mk (buffer io) (pos io + n).

(** The stream with [extra] bytes appended after its end, at the same
    read position. *)
Definition extend (extra : list Z) (io : t) : t :=
  mk (buffer io ++ extra) (pos io).

(** [seek] takes the offset as the [size_t] the caller computed. *)
Definition seek (offset : Z) (io : t) : result t :=
  if (0 <=? offset) && (offset <=? Z.of_nat (size io))
  then Ok (mk (buffer io) (Z.to_nat offset))
  else Throw EofError.

Definition read (n : nat) (io : t) : result (list Z * t) :=
  if (pos io + n <=? size io)%nat
  then Ok (take n (drop (pos io) (buffer io)), mk (buffer io) (pos io + n))
  else Throw EofError.

Definition read_u8 (io : t) : result (Z * t) :=
  match buffer io !! pos io with
  | Some b => Ok (b, mk (buffer io) (pos io + 1))
  | None => Throw EofError
  end.

Definition read_u16_le (io : t) : result (Z * t) :=
  '(lo, io1) ← read_u8 io;
  '(hi, io2) ← read_u8 io1;
  Ok (Z.lor lo (Z.shiftl hi 8), io2).

End IO.

(** ** Files and magic bytes *)

(** The bytes of an ASCII string literal. *)
Fixpoint bytes_of (s : string) : list Z :=
  match s with
  | EmptyString => []
  | String a s' => Z.of_N (Ascii.N_of_ascii a) :: bytes_of s'
  end.

(** [File]: a name and a stream. *)
Record File : Type := mkFile { name : string; io : IO.t }.

(** [size_t] subtraction. *)
Definition size_t_sub (a b : nat) : Z := (Z.of_nat a - Z.of_nat b) mod 2 ^ 64.

(** [file.io.read(magic.size()) == magic] *)
Definition read_matches (magic : list Z) (io : IO.t) : result bool :=
  '(bytes, _) ← IO.read (length magic) io;
  Ok (bool_decide (bytes = magic)).

(** ** PGD: the back-reference decompressor *)

Module Pgd.

Definition magic : list Z := bytes_of "GE" ++ [0x20; 0x00].

Definition is_recognized_impl (file : File) : result bool :=
  read_matches magic (io file).

(** Modelled from the spec: [bstr] is not part of these sources;
    [bstr output(size_orig)] is a buffer of [size_orig] zero bytes that
    never grows. *)
Definition bstr_sized (n : nat) : list Z := replicate n 0.

(** The variables of [decompress] that live across loop iterations. *)
Record state : Type := mkState {
  input_io : IO.t;
  control : Z;
  output : list Z;
  output_ptr : nat
}.

(** [control >>= 1; if (!(control & 0x100)) control = read_u8() | 0xFF00;]
    Both operands of the [|] are below [2^16], so the store into the [u16]
    does not truncate. *)
Definition next_control (control : Z) (io : IO.t) : result (Z * IO.t) :=
  let control := Z.shiftr control 1 in
  if Z.land control 0x100 =? 0
  then '(b, io') ← IO.read_u8 io; Ok (Z.lor b 0xFF00, io')
  else Ok (control, io).

(** The control word [k] iterations after control byte [b] was loaded. *)
Definition control_word (b k : Z) : Z := Z.shiftr (Z.lor b 0xFF00) k.

(** The two token forms of a back-reference, as (repetitions, look_behind). *)
Definition short_token (tmp : Z) : Z * Z :=
  (Z.land tmp 7 + 4, Z.shiftr tmp 4).

Definition long_token (tmp : Z) : Z * Z :=
  (Z.lor (Z.shiftl (Z.shiftr (Z.land tmp 0xFFC) 2 + 1) 2) (Z.land tmp 3),
   Z.shiftr tmp 12).

(** [tmp = read_u16_le(); if (tmp & 8) ... else { tmp = (tmp << 8) | read_u8(); ... }] *)
Definition read_backref (io : IO.t) : result (Z * Z * IO.t) :=
  '(tmp, io1) ← IO.read_u16_le io;
  if negb (Z.land tmp 8 =? 0)
  then Ok (short_token tmp, io1)
  else
    '(b, io2) ← IO.read_u8 io1;
    Ok (long_token (Z.lor (Z.shiftl tmp 8) b), io2).

(** [while (output_ptr < output_end && repetitions--) *output_ptr++ = *src_ptr++;]
    with the source inside the output buffer. *)
Fixpoint copy_within (repetitions : nat) (out : list Z) (output_ptr src_ptr : nat)
  : list Z * nat :=
  match repetitions with
  | O => (out, output_ptr)
  | S r =>
      if (output_ptr <? length out)%nat
      then copy_within r (<[output_ptr := out !!! src_ptr]> out)
             (S output_ptr) (S src_ptr)
      else (out, output_ptr)
  end.

(** [src_ptr = output_ptr - look_behind; if (src_ptr < output_start) throw ...] *)
Definition copy_backref (repetitions look_behind : Z) (out : list Z) (output_ptr : nat)
  : result (list Z * nat) :=
  let src_ptr := Z.of_nat output_ptr - look_behind in
  if src_ptr <? 0
  then Throw BadDataOffsetError
  else Ok (copy_within (Z.to_nat repetitions) out output_ptr (Z.to_nat src_ptr)).

(** The same loop with the source in the bytes read from the input. *)
Fixpoint copy_literal (src : list Z) (out : list Z) (output_ptr : nat)
  : list Z * nat :=
  match src with
  | [] => (out, output_ptr)
  | b :: src' =>
      if (output_ptr <? length out)%nat
      then copy_literal src' (<[output_ptr := b]> out) (S output_ptr)
      else (out, output_ptr)
  end.

(** One iteration of the outer [while] of [decompress]. *)
Definition step (st : state) : result state :=
  '(control, io) ← next_control (control st) (input_io st);
  if negb (Z.land control 1 =? 0)
  then
    '(repetitions, look_behind, io1) ← read_backref io;
    '(out, ptr) ← copy_backref repetitions look_behind (output st) (output_ptr st);
    Ok (mkState io1 control out ptr)
  else
    '(repetitions, io1) ← IO.read_u8 io;
    '(src, io2) ← IO.read (Z.to_nat repetitions) io1;
    let '(out, ptr) := copy_literal src (output st) (output_ptr st) in
    Ok (mkState io2 control out ptr).

(** [while (output_ptr < output_end) { ... }] *)
Fixpoint loop (fuel : nat) (st : state) : result state :=
  if (output_ptr st <? length (output st))%nat
  then
    match fuel with
    | O => OutOfFuel
    | S fuel' => st' ← step st; loop fuel' st'
    end
  else Ok st.

Definition init (input : list Z) (size_orig : nat) : state :=
  mkState (IO.of_bytes input) 0 (bstr_sized size_orig) 0.

(** [decompress] with the final state of its locals.  Every iteration
    reads at least one input byte, so the loop body runs at most once per
    input byte, and once more to raise [EofError]. *)
Definition run (input : list Z) (size_orig : nat) : result state :=
  loop (S (length input)) (init input size_orig).

Definition decompress (input : list Z) (size_orig : nat) : result (list Z) :=
  st ← run input size_orig; Ok (output st).

(** A compressed stream is well formed for a declared size when
    [decompress] raises no exception on it: no read runs past the end of
    the stream and no back-reference points before the output. *)
Definition well_formed (input : list Z) (size_orig : nat) : Prop :=
  raises (decompress input size_orig) = false.

(** The decoder state over the same stream followed by [extra] bytes. *)
Definition with_trailing (extra : list Z) (st : state) : state :=
  mkState (IO.extend extra (input_io st)) (control st) (output st) (output_ptr st).

(** *** The token grammar, in the specification's words

    A second description of one token of the stream, to compare [step]
    with: what a control bit and the bytes that follow it stand for. *)
Inductive token : Type :=
  | Literal (bytes : list Z)
  | BackRef (repetitions look_behind : Z).

(** The 16-bit word of a token's first two bytes, low byte first. *)
Definition u16_le (lo hi : Z) : Z := Z.lor lo (Z.shiftl hi 8).

(** [token_of bit bytes tok]: after control bit [bit], the stream bytes
    [bytes] are exactly one token, [tok].
    - bit 0: an 8-bit count [n], then [n] literal bytes;
    - bit 1, bit 3 of the low byte set: two bytes, count (low 3 bits)+4,
      distance the high 12 bits of the word;
    - bit 1, bit 3 of the low byte clear: three bytes packed into 24 bits,
      count [(((packed & 0xFFC)>>2)+1)<<2 | (packed & 3)], distance the
      word shifted right by 4 bits. *)
Inductive token_of : bool → list Z → token → Prop :=
  | token_literal (n : Z) (bytes : list Z) :
      Z.of_nat (length bytes) = n →
      token_of false (n :: bytes) (Literal bytes)
  | token_short (lo hi : Z) :
      Z.testbit lo 3 = true →
      token_of true [lo; hi]
        (BackRef (Z.land lo 7 + 4) (Z.shiftr (u16_le lo hi) 4))
  | token_long (lo hi b : Z) :
      Z.testbit lo 3 = false →
      let packed := Z.lor (Z.shiftl (u16_le lo hi) 8) b in
      token_of true [lo; hi; b]
        (BackRef
           (Z.lor (Z.shiftl (Z.shiftr (Z.land packed 0xFFC) 2 + 1) 2) (Z.land packed 3))
           (Z.shiftr (u16_le lo hi) 4)).

(** [bytes] written over the buffer from [ptr] on, cut at the buffer's end. *)
Definition write_at (ptr : nat) (bytes : list Z) (out : list Z) : list Z :=
  take ptr out ++ take (length out - ptr) bytes ++ drop (ptr + length bytes) out.

(** What a token does to the output buffer and its cursor. *)
Definition exec_token (tok : token) (out : list Z) (ptr : nat)
  : result (list Z * nat) :=
  match tok with
  | Literal bytes =>
      Ok (write_at ptr bytes out, Nat.min (ptr + length bytes) (length out))
  | BackRef repetitions look_behind =>
      copy_backref repetitions look_behind out ptr
  end.

(** *** Sample streams

    A literal run of 2 bytes, then a short back-reference of count 8 and
    look-behind 2, for a declared size of 6. *)
Definition sample_stream : list Z := [0x02; 2; 10; 20; 0x2C; 0x00].

(** The decoder on [sample_stream] before its first and before its
    second token. *)
Definition sample_start : state := init sample_stream 6.

Definition sample_middle : state :=
  mkState (IO.mk sample_stream 4) 0xFF02 [10; 20; 0; 0; 0; 0] 2.

(** The decoder with 8 of 16 bytes produced, before the short token
    [0x8C 0x00] of count 8 and look-behind 8. *)
Definition sample_after_8 : state :=
  mkState (IO.mk [0x02; 8; 1; 2; 3; 4; 5; 6; 7; 8; 0x8C; 0x00] 10) 0xFF02
    [1; 2; 3; 4; 5; 6; 7; 8; 0; 0; 0; 0; 0; 0; 0; 0] 8.

End Pgd.

(** ** PGD: the delta line filter *)

Module Delta.

(** Modelled from the spec: [util::range] ([util/range.h]) is not part
    of these sources; [util::range(a, b)] is the indices [a], [a+1], ...,
    [b-1], none when [b <= a], and [util::range(b)] is [util::range(0, b)]. *)
Definition range (a b : nat) : list nat := seq a (b - a).

Section Memory.

(** For row 0 the pointer [prev_line = output + (y - 1) * stride] lies
    [stride] bytes before the first byte of the buffer, and
    [prev_line[x]] reads memory that is not part of it.  What that memory
    holds is not decided by [apply_delta_filter]: it is the parameter
    [outside], by offset from the buffer's first byte. *)
Variable outside : Z → Z.

(** [*(output.get<u8>() + i)] for a signed offset [i]. *)
Definition peek (out : list Z) (i : Z) : Z :=
  if (0 <=? i) && (i <? Z.of_nat (length out))
  then out !!! Z.to_nat i
  else outside i.

(** The right-hand sides of the three inner loops, as the [int] that is
    then stored into the [u8] [dst_line[x]]; [d] is the offset of
    [dst_line] in the buffer and [d - stride] that of [prev_line]. *)
Definition value1 (channels d : nat) (out : list Z) (x : nat) : Z :=
  out !!! (d + x - channels)%nat - out !!! (d + x)%nat.

Definition value2 (stride d : nat) (out : list Z) (x : nat) : Z :=
  peek out (Z.of_nat d - Z.of_nat stride + Z.of_nat x) - out !!! (d + x)%nat.

Definition value4 (channels stride d : nat) (out : list Z) (x : nat) : Z :=
  let mean :=
    (peek out (Z.of_nat d - Z.of_nat stride + Z.of_nat x)
     + out !!! (d + x - channels)%nat) ÷ 2 in
  mean - out !!! (d + x)%nat.

(** [for (auto x : xs) dst_line[x] = value(x);] *)
Definition row_loop (value : list Z → nat → Z) (d : nat) (xs : list nat)
    (out : list Z) : list Z :=
  fold_left (λ out x, <[(d + x)%nat := u8 (value out x)]> out) xs out.

(** The body of the loop over the rows. *)
Definition filter_row (code : Z) (channels stride y : nat) (out : list Z)
  : result (list Z) :=
  let d := (y * stride)%nat in
  if code =? 1 then
    Ok (row_loop (value1 channels d) d (range channels stride) out)
  else if code =? 2 then
    Ok (row_loop (value2 stride d) d (range 0 stride) out)
  else if code =? 4 then
    Ok (row_loop (value4 channels stride d) d (range channels stride) out)
  else Throw CorruptDataError.

Fixpoint filter_rows (delta_spec : list Z) (channels stride : nat)
    (ys : list nat) (out : list Z) : result (list Z) :=
  match ys with
  | [] => Ok out
  | y :: ys' =>
      out' ← filter_row (delta_spec !!! y) channels stride y out;
      filter_rows delta_spec channels stride ys' out'
  end.

Definition apply_delta_filter (delta_spec input : list Z)
    (width height channels : nat) : result (list Z) :=
  let stride := (width * channels)%nat in
  if negb (length delta_spec =? height)%nat then Throw BadDataSizeError
  else if (length input <? width * height * channels)%nat then Throw BadDataSizeError
  else filter_rows delta_spec channels stride (range 0 height) input.

(** Row [y] of a buffer, and the row above it as [prev_line] reads it. *)
Definition row (stride y : nat) (out : list Z) : list Z :=
  take stride (drop (y * stride) out).

Definition row_above (stride y : nat) (out : list Z) (x : nat) : Z :=
  peek out (Z.of_nat (y * stride) - Z.of_nat stride + Z.of_nat x).

End Memory.

(** *** The forward transform, in the specification's words

    What an encoder stores for a row: with code 1 the difference of the
    byte one channel group to the left and the byte itself, from the
    second channel group on; with code 2 the difference of the byte above
    and the byte itself; with code 4 the difference of the average of the
    byte above and the byte to the left, and the byte itself, from the
    second channel group on. *)
Definition forward (code : Z) (channels : nat) (above : nat → Z)
    (orig : list Z) : list Z :=
  imap (λ x v,
    if code =? 1 then
      if (x <? channels)%nat then v else u8 (orig !!! (x - channels)%nat - v)
    else if code =? 2 then
      u8 (above x - v)
    else
      if (x <? channels)%nat then v
      else u8 ((above x + orig !!! (x - channels)%nat) ÷ 2 - v)) orig.

(** [stored] is the forward transform of the image [orig], row by row:
    each of the [height] rows is transformed with its selector against
    the row above it in [orig] (for row 0, against what the decoder reads
    there), and the bytes after the last row are as in [orig]. *)
Definition encoded (outside : Z → Z) (delta_spec : list Z)
    (channels stride height : nat) (orig stored : list Z) : Prop :=
  length stored = length orig ∧
  (∀ y, (y < height)%nat →
     row stride y stored
     = forward (delta_spec !!! y) channels (row_above outside stride y orig)
         (row stride y orig)) ∧
  drop (height * stride) stored = drop (height * stride) orig.

(** The buffer [out] with the bytes at offsets [d + a], ..., [d + k - 1]
    replaced by [target a], ..., [target (k - 1)]: the shape of the buffer
    while a row at offset [d] is being rebuilt. *)
Definition rebuilt (target : nat → Z) (d a k : nat) (out : list Z) : list Z :=
  imap (λ i b, if decide (d + a ≤ i < d + k)%nat then target (i - d)%nat else b) out.

(** *** A sample image

    Two rows of two bytes, one channel: row 0 as it is, row 1 the forward
    transform with code 4 of the row [100; 50]. *)
Definition sample_buffer : list Z := [5; 7; 100; 3].

(** *** The memory before a heap buffer

    An instance of [outside] for the examples: the eight bytes before a
    buffer that glibc's [malloc] returns hold the size and the flags of
    its chunk, least significant byte first, [0x21] for the smallest
    chunk while it is in use; the other bytes are taken as 0. *)
Definition chunk_header (i : Z) : Z := if i =? -8 then 0x21 else 0.

End Delta.

(** ** ACD and PAK2 audio: recognition *)

Module Acd.

Definition magic : list Z := bytes_of "ACD 1.00".

Definition is_recognized_internal (file : File) : result bool :=
  read_matches magic (io file).

End Acd.

Module Pak2Audio.

Definition magic : list Z := [0x03; 0x95; 0xAD; 0x4B].

Definition is_recognized_impl (file : File) : result bool :=
  io1 ← IO.seek 4 (io file);
  read_matches magic io1.

End Pak2Audio.

(** ** TGA *)

Module Tga.

Definition magic : list Z := bytes_of "TRUEVISION-XFILE" ++ [0x2E; 0x00].

Section Recognition.

(** [File::has_extension] is not part of these sources: a predicate on
    the file name and an extension. *)
Variable has_extension : string → string → bool.

Definition is_recognized_impl (file : File) : result bool :=
  io1 ← IO.seek (size_t_sub (IO.size (io file)) (length magic)) (io file);
  footer ← read_matches magic io1;
  if (footer : bool) then Ok true
  else Ok (has_extension (name file) "tga").

End Recognition.

(** An instance of [has_extension] for the examples: the file name ends
    in a dot followed by the extension. *)
Fixpoint ends_with (suffix s : string) : bool :=
  if String.eqb s suffix then true
  else match s with
       | EmptyString => false
       | String _ s' => ends_with suffix s'
       end.

Definition has_extension_by_suffix (name ext : string) : bool :=
  ends_with ("." +:+ ext) name.

(** [bstr] is not part of these sources.  Its [reserve], [capacity] and
    [+=] are taken as those of the C++ standard library container that
    holds its bytes: the capacity is never below the size, it is not
    below [n] after [reserve(n)], and it changes only when appended
    bytes no longer fit.  Which capacity is picked beyond that is not
    decided by the decoder; it is the parameters [reserved] and [grown]
    below. *)
Record bstr : Type := mkBstr { bytes : list Z; capacity : nat }.

Section Growth.

(** [reserved n]: the capacity that [reserve(n)] gives an empty buffer.
    [grown cap size n]: the capacity picked when [n] bytes are appended
    to a buffer of [size] bytes and capacity [cap] that has no room for
    them. *)
Variable reserved : nat → nat.
Variable grown : nat → nat → nat → nat.

(** [bstr output; output.reserve(n);] *)
Definition reserve (n : nat) : bstr := mkBstr [] (Nat.max n (reserved n)).

(** [output += chunk;] *)
Definition append (chunk : list Z) (output : bstr) : bstr :=
  let size := (length (bytes output) + length chunk)%nat in
  mkBstr (bytes output ++ chunk)
    (if (size <=? capacity output)%nat then capacity output
     else Nat.max size
            (grown (capacity output) (length (bytes output)) (length chunk))).

(** [for (auto i : util::range(repetitions)) output += io.read(channels);] *)
Fixpoint read_chunks (repetitions channels : nat) (io : IO.t) (output : bstr)
  : result (bstr * IO.t) :=
  match repetitions with
  | O => Ok (output, io)
  | S r =>
      '(chunk, io') ← IO.read channels io;
      read_chunks r channels io' (append chunk output)
  end.

(** [for (auto i : util::range(repetitions)) output += chunk;] *)
Fixpoint append_chunk (repetitions : nat) (chunk : list Z) (output : bstr) : bstr :=
  match repetitions with
  | O => output
  | S r => append_chunk r chunk (append chunk output)
  end.

(** One packet: the body of the [while] loop. *)
Definition packet (channels : nat) (io : IO.t) (output : bstr)
  : result (bstr * IO.t) :=
  '(control, io1) ← IO.read_u8 io;
  let repetitions := Z.to_nat (Z.land control 0x7F + 1) in
  let use_rle := negb (Z.land control 0x80 =? 0) in
  if use_rle then
    '(chunk, io2) ← IO.read channels io1;
    Ok (append_chunk repetitions chunk output, io2)
  else read_chunks repetitions channels io1 output.

(** [while (output.size() < output.capacity()) { ... }]: the capacity is
    asked for anew before every packet. *)
Fixpoint packets (fuel : nat) (channels : nat) (io : IO.t) (output : bstr)
  : result (bstr * IO.t) :=
  if (length (bytes output) <? capacity output)%nat
  then
    match fuel with
    | O => OutOfFuel
    | S fuel' =>
        '(output', io') ← packet channels io output;
        packets fuel' channels io' output'
    end
  else Ok (output, io).

(** Every packet reads its control byte, so the loop body runs at most
    once per byte left in the stream, and once more to raise [EofError]. *)
Definition read_compressed_pixel_data (io : IO.t) (width height channels : nat)
  : result (list Z * IO.t) :=
  '(output, io') ← packets (S (IO.remaining io)) channels io
                     (reserve (width * height * channels));
  Ok (bytes output, io').

End Growth.

(** An instance of the two parameters for the examples, the [std::vector]
    of libstdc++: [reserve(n)] on an empty vector allocates room for [n]
    bytes, and an insertion of [n] bytes that do not fit reallocates to
    [size + max(size, n)]. *)
Definition vector_reserved (n : nat) : nat := n.

Definition vector_grown (cap size n : nat) : nat := (size + Nat.max size n)%nat.

End Tga.

(** ** PGD: the planar filter *)

Module Filter2.

(** [static inline u8 clamp(const long v)] *)
Definition clamp (v : Z) : Z :=
  if 255 <? v then 255 else if v <? 0 then 0 else v.

(** The value of a byte read through a [const s8 *]. *)
Definition s8 (b : Z) : Z := (b + 128) mod 256 - 128.

(** [p[i] = v] on the output buffer.  The buffer does not grow; a store
    outside of it has no defined behaviour and is [None]. *)
Definition store (i : nat) (v : Z) (out : list Z) : option (list Z) :=
  if (i <? length out)%nat then Some (<[i := v]> out) else None.

(** [for (auto x : xs) body;] over a state, for a body that can fail. *)
Fixpoint for_each {A S : Type} (body : S → A → option S) (xs : list A) (s : S)
  : option S :=
  match xs with
  | [] => Some s
  | x :: xs' => s' ← body s x; for_each body xs' s'
  end.

(** The pointers of [apply_filter_2], as offsets from the first byte of
    [input] and of [output], and the output buffer. *)
Record cursor : Type := mkCursor {
  plane1 : nat;
  plane2 : nat;
  plane3 : nat;
  output_ptr : nat;
  output : list Z
}.

Section Memory.

(** [apply_filter_2] does not compare the size of [input] with [width]
    and [height]; what a read past the end of [input] yields is the
    parameter [outside], by offset from the first byte of [input]. *)
Variable outside : Z → Z.
Variable input : list Z.
Variable width : nat.

Definition byte_at (i : nat) : Z := Delta.peek outside input (Z.of_nat i).

Definition indices : list nat := [0; 1; width; width + 1]%nat.

(** The body of [for (auto index : indices)]. *)
Definition write_pixel (value_b value_g value_r : Z) (c : cursor)
    (out : list Z) (index : nat) : option (list Z) :=
  let base := Z.shiftl (byte_at (plane3 c + index)) 7 in
  out ← store (output_ptr c + 3 * index + 0) (clamp (Z.shiftr (base + value_b) 7)) out;
  out ← store (output_ptr c + 3 * index + 1) (clamp (Z.shiftr (base + value_g) 7)) out;
  store (output_ptr c + 3 * index + 2) (clamp (Z.shiftr (base + value_r) 7)) out.

(** The body of [for (auto x : util::range(width / 2))]. *)
Definition block (c : cursor) : option cursor :=
  let value_b := 226 * s8 (byte_at (plane1 c)) in
  let value_g := -43 * s8 (byte_at (plane1 c)) - 89 * s8 (byte_at (plane2 c)) in
  let value_r := 179 * s8 (byte_at (plane2 c)) in
  out ← for_each (write_pixel value_b value_g value_r c) indices (output c);
  Some (mkCursor (plane1 c + 1) (plane2 c + 1) (plane3 c + 2) (output_ptr c + 6) out).

(** The body of [for (auto y : util::range(height / 2))]. *)
Definition block_row (c : cursor) : option cursor :=
  let out_stride := (width * 3)%nat in
  c' ← for_each (λ c _, block c) (Delta.range 0 (width / 2)) c;
  Some (mkCursor (plane1 c') (plane2 c') (plane3 c' + width)
          (output_ptr c' + out_stride) (output c')).

Definition apply_filter_2 (height : nat) : option (list Z) :=
  let out_stride := (width * 3)%nat in
  let block_size := (width * height / 4)%nat in
  c ← for_each (λ c _, block_row c) (Delta.range 0 (height / 2))
        (mkCursor (0 * block_size) (1 * block_size) (2 * block_size) 0
           (Pgd.bstr_sized (height * out_stride)));
  Some (output c).

End Memory.

(** *** The planar filter, in the specification's words

    The input is two quarter-resolution planes of signed chroma samples
    and one full-resolution plane of luma samples, one after the other;
    the pixel at column [x] of row [y] takes the chroma samples of its
    2x2 block and its own luma sample, and its channels are
    [B = (luma<<7 + 226*Cb) >> 7], [G = (luma<<7 - 43*Cb - 89*Cr) >> 7],
    [R = (luma<<7 + 179*Cr) >> 7], each clamped to [0, 255]. *)
Definition chroma (channel : nat) (cb cr : Z) : Z :=
  match channel with
  | 0%nat => 226 * cb
  | 1%nat => -43 * cb - 89 * cr
  | _ => 179 * cr
  end.

Definition upsampled (outside : Z → Z) (input : list Z) (width height : nat)
    (x y channel : nat) : Z :=
  let block_size := (width * height / 4)%nat in
  let sample := (y / 2 * (width / 2) + x / 2)%nat in
  let cb := s8 (Delta.peek outside input (Z.of_nat (0 * block_size + sample))) in
  let cr := s8 (Delta.peek outside input (Z.of_nat (1 * block_size + sample))) in
  let luma := Delta.peek outside input (Z.of_nat (2 * block_size + y * width + x)) in
  clamp (Z.shiftr (Z.shiftl luma 7 + chroma channel cb cr) 7).

(** The pointers before block [k] of block row [m]: a block row moves
    [plane3] by [2 * (width / 2) + width] bytes and [output_ptr] by three
    times as much. *)
Definition cursor_at (width height m k : nat) (c : cursor) : Prop :=
  let block_size := (width * height / 4)%nat in
  let row_step := (2 * (width / 2) + width)%nat in
  plane1 c = (0 * block_size + m * (width / 2) + k)%nat ∧
  plane2 c = (1 * block_size + m * (width / 2) + k)%nat ∧
  plane3 c = (2 * block_size + m * row_step + 2 * k)%nat ∧
  output_ptr c = (3 * (m * row_step + 2 * k))%nat ∧
  length (output c) = (height * (width * 3))%nat.

(** *** A sample image

    Two rows of two pixels: one blue-difference sample, one red-difference
    sample (240, that is -16), and four luma samples. *)
Definition sample_planes : list Z := [16; 240; 100; 110; 120; 130].

End Filter2.

(** ** The bit cursor *)

Module BitReader.

(** Modelled from the spec: [io::BitReader] ([io/bit_reader.h]) is not
    part of these sources.  The bit cursor reads an immutable byte buffer
    most-significant-bit-first within each byte; [get(n)] consumes and
    returns the next [n] bits as an unsigned integer and fails when fewer
    than [n] bits remain, here with the [EofError] of the byte stream. *)
Record t : Type := mk { buffer : list Z; pos : nat }.

Definition bits_of_byte (b : Z) : list bool :=
  map (λ k, Z.testbit b k) [7; 6; 5; 4; 3; 2; 1; 0].

Definition bits_of (bytes : list Z) : list bool := flat_map bits_of_byte bytes.

Definition unread (r : t) : list bool := drop (pos r) (bits_of (buffer r)).

(** The unsigned integer of a run of bits, first bit most significant. *)
Definition value (bits : list bool) : Z :=
  fold_left (λ acc (b : bool), 2 * acc + Z.b2z b) bits 0.

Definition get (n : nat) (r : t) : result (Z * t) :=
  let bits := take n (unread r) in
  if (length bits <? n)%nat then Throw EofError
  else Ok (value bits, mk (buffer r) (pos r + n)).

End BitReader.

(** ** ACD: the pixel code *)

Module AcdPixels.

(** The value of a C++ [s32] after an operation whose mathematical result
    is [z]: the product in [do_decode] exceeds [2^31] for most of its
    inputs and wraps around on the two's complement targets of the
    program. *)
Definition s32 (z : Z) : Z := (z + 2 ^ 31) mod 2 ^ 32 - 2 ^ 31.

(** [while (!bit) { bit = get(1); byte = (byte << 1) | bit;
    bit = (byte >> 8) & 1; byte &= 0xFF; }] *)
Fixpoint read_level (fuel : nat) (byte : Z) (r : BitReader.t)
  : result (Z * BitReader.t) :=
  match fuel with
  | O => OutOfFuel
  | S fuel' =>
      '(bit, r') ← BitReader.get 1 r;
      let byte := Z.lor (Z.shiftl byte 1) bit in
      let bit := Z.land (Z.shiftr byte 8) 1 in
      let byte := Z.land byte 0xFF in
      if bit =? 0 then read_level fuel' byte r' else Ok (byte, r')
  end.

(** [if (byte) { byte++; byte *= 0x28CCCCD; byte >>= 24; }] *)
Definition scale (byte : Z) : Z :=
  if byte =? 0 then byte
  else Z.shiftr (s32 (s32 (byte + 1) * 0x28CCCCD)) 24.

(** The body of the outer loop up to the store: the [s32 byte] that is
    then stored.  The inner loop starts from [byte = 2] and leaves when a
    1 has been shifted up to bit 8, which takes seven reads; the model
    gives it fuel for eight. *)
Definition read_pixel (r : BitReader.t) : result (Z * BitReader.t) :=
  let byte := 0 in
  '(bit, r1) ← BitReader.get 1 r;
  if negb (bit =? 0) then
    let byte := byte - 1 in
    '(bit, r2) ← BitReader.get 1 r1;
    if bit =? 0 then
      let byte := byte + 3 in
      '(byte, r3) ← read_level 8 byte r2;
      Ok (scale byte, r3)
    else Ok (byte, r2)
  else Ok (byte, r1).

Record state : Type := mkState {
  bit_reader : BitReader.t;
  output : list Z;
  output_ptr : nat
}.

(** [while (output_ptr < output_end) { ...; *output_ptr++ = byte; }]
    Every iteration advances [output_ptr], so the body runs once per byte
    of the canvas. *)
Fixpoint loop (fuel : nat) (st : state) : result state :=
  if (output_ptr st <? length (output st))%nat
  then
    match fuel with
    | O => OutOfFuel
    | S fuel' =>
        '(byte, r) ← read_pixel (bit_reader st);
        loop fuel' (mkState r (<[output_ptr st := u8 byte]> (output st))
                      (S (output_ptr st)))
    end
  else Ok st.

Definition do_decode (input : list Z) (canvas_size : nat) : result (list Z) :=
  st ← loop canvas_size
         (mkState (BitReader.mk input 0) (Pgd.bstr_sized canvas_size) 0);
  Ok (output st).

(** *** The code that [do_decode] reads

    A pixel is one of three code words: the bit 0 for the value 0, the
    bits 11 for the value 255, and the bits 10 followed by a level of
    seven bits, most significant first. *)
Inductive symbol : Type :=
  | Zero
  | Full
  | Level (v : Z).

Definition code (s : symbol) : list bool :=
  match s with
  | Zero => [false]
  | Full => [true; true]
  | Level v => [true; false] ++ map (λ k, Z.testbit v k) [6; 5; 4; 3; 2; 1; 0]
  end.

Definition pixel (s : symbol) : Z :=
  match s with
  | Zero => 0
  | Full => 255
  | Level v => u8 (scale v)
  end.

Definition valid (s : symbol) : Prop :=
  match s with
  | Level v => 0 ≤ v < 128
  | _ => True
  end.

Definition sample_symbols : list symbol := [Level 49; Zero; Full; Level 99].

(** The bits [10 0110001], [0], [11], [10 1100011] and three more to
    fill the last byte. *)
Definition sample_input : list Z := [0x98; 0xBB; 0x18].

End AcdPixels.

(** *** Sample files: twenty bytes that are no magic of any decoder *)
Definition sample_bytes : list Z :=
  [1; 2; 3; 4; 5; 6; 7; 8; 9; 10; 11; 12; 13; 14; 15; 16; 17; 18; 19; 20].

Definition sample_bin : File := mkFile "a.bin" (IO.of_bytes sample_bytes).

Definition sample_tga : File := mkFile "a.tga" (IO.of_bytes sample_bytes).

(** * Properties *)

(** Side conditions on byte values. *)
Ltac byte_range := unfold is_byte in *; lia.
Ltac byte_list := repeat constructor; byte_range.

(** ** The byte stream *)

Module IOFacts.
Import IO.

Lemma read_u8_Ok io b io' :
  read_u8 io = Ok (b, io') ↔
  buffer io !! pos io = Some b ∧ io' = mk (buffer io) (pos io + 1).
Proof.
  unfold read_u8. destruct (buffer io !! pos io) as [b0|]; split.
  - intros [= <- <-]. done.
  - intros [[= <-] ->]. done.
  - done.
  - intros [[=] _].
Qed.

Lemma read_u8_outcome io :
  (∃ b io', read_u8 io = Ok (b, io')) ∨ read_u8 io = Throw EofError.
Proof. unfold read_u8. destruct (buffer io !! pos io); eauto. Qed.

Lemma read_u8_advanced io b io' :
  read_u8 io = Ok (b, io') →
  buffer io' = buffer io ∧ pos io' = (pos io + 1)%nat ∧ (pos io' ≤ size io)%nat.
Proof.
  intros [Hb ->]%read_u8_Ok. simpl. apply lookup_lt_Some in Hb.
  unfold size. split; [done|]. split; [done|lia].
Qed.

Lemma read_Ok n io bs io' :
  read n io = Ok (bs, io') ↔
  (pos io + n ≤ size io)%nat ∧ bs = take n (drop (pos io) (buffer io)) ∧
  io' = mk (buffer io) (pos io + n).
Proof.
  unfold read. destruct (Nat.leb_spec (pos io + n) (size io)); split.
  - intros [= <- <-]. done.
  - intros (_ & -> & ->). done.
  - done.
  - lia.
Qed.

Lemma read_outcome n io :
  (∃ bs io', read n io = Ok (bs, io')) ∨ read n io = Throw EofError.
Proof. unfold read. destruct (_ <=? _)%nat; eauto. Qed.

Lemma read_u16_le_Ok io v io' :
  read_u16_le io = Ok (v, io') ↔
  ∃ lo hi, buffer io !! pos io = Some lo ∧ buffer io !! (pos io + 1)%nat = Some hi ∧
           v = Z.lor lo (Z.shiftl hi 8) ∧ io' = mk (buffer io) (pos io + 2).
Proof.
  unfold read_u16_le, read_u8. split.
  - destruct (buffer io !! pos io) as [lo|] eqn:Hlo; simpl; [|done].
    destruct (buffer io !! (pos io + 1)%nat) as [hi|] eqn:Hhi; simpl; [|done].
    intros [= <- <-]. exists lo, hi. repeat split; try done.
    f_equal. lia.
  - intros (lo & hi & -> & Hhi & -> & ->). simpl. rewrite Hhi. simpl.
    do 3 f_equal. lia.
Qed.

Lemma read_u16_le_outcome io :
  (∃ v io', read_u16_le io = Ok (v, io')) ∨ read_u16_le io = Throw EofError.
Proof.
  unfold read_u16_le.
  destruct (read_u8_outcome io) as [(lo & io1 & ->)| ->]; simpl; [|by right].
  destruct (read_u8_outcome io1) as [(hi & io2 & ->)| ->]; simpl; eauto.
Qed.

Lemma read_u8_extend extra io b io' :
  read_u8 io = Ok (b, io') →
  read_u8 (extend extra io) = Ok (b, extend extra io').
Proof.
  intros [Hb ->]%read_u8_Ok. apply read_u8_Ok. simpl.
  split; [|done]. by apply lookup_app_l_Some.
Qed.

Lemma read_extend extra n io bs io' :
  read n io = Ok (bs, io') →
  read n (extend extra io) = Ok (bs, extend extra io').
Proof.
  intros (Hn & -> & ->)%read_Ok. apply read_Ok. unfold size in *. simpl.
  rewrite length_app. split; [lia|]. split; [|done].
  rewrite drop_app_le by lia. rewrite take_app_le; [done|].
  rewrite length_drop. lia.
Qed.

Lemma read_u16_le_extend extra io v io' :
  read_u16_le io = Ok (v, io') →
  read_u16_le (extend extra io) = Ok (v, extend extra io').
Proof.
  intros (lo & hi & Hlo & Hhi & -> & ->)%read_u16_le_Ok.
  apply read_u16_le_Ok. exists lo, hi. simpl.
  repeat split; try done; by apply lookup_app_l_Some.
Qed.

Lemma advance_advance n m io : advance m (advance n io) = advance (n + m) io.
Proof. unfold advance. simpl. f_equal. lia. Qed.

Lemma read_u8_unread io b rest :
  unread io = b :: rest →
  read_u8 io = Ok (b, advance 1 io) ∧ unread (advance 1 io) = rest.
Proof.
  unfold unread, advance. intros Hu. split.
  - apply read_u8_Ok. split; [|done].
    rewrite <- (Nat.add_0_r (pos io)), <- lookup_drop, Hu. done.
  - simpl. rewrite <- drop_drop, Hu. done.
Qed.

Lemma read_unread io bs rest :
  (pos io ≤ size io)%nat →
  unread io = bs ++ rest →
  read (length bs) io = Ok (bs, advance (length bs) io) ∧
  unread (advance (length bs) io) = rest.
Proof.
  unfold unread, advance. intros Hpos Hu. split.
  - apply read_Ok. rewrite Hu, take_app_length. split; [|done].
    apply (f_equal length) in Hu. rewrite length_drop, length_app in Hu.
    unfold size in *. lia.
  - simpl. rewrite <- drop_drop, Hu. apply drop_app_length.
Qed.

Lemma read_u16_le_unread io lo hi rest :
  unread io = lo :: hi :: rest →
  read_u16_le io = Ok (Z.lor lo (Z.shiftl hi 8), advance 2 io) ∧
  unread (advance 2 io) = rest.
Proof.
  intros Hu. apply read_u8_unread in Hu as [Hlo Hu].
  apply read_u8_unread in Hu as [Hhi Hu].
  rewrite advance_advance in Hhi, Hu. unfold read_u16_le.
  rewrite Hlo. simpl. rewrite Hhi. done.
Qed.

End IOFacts.

(** ** PGD: the back-reference decompressor *)

Module PgdFacts.
Import IO IOFacts Pgd.

Lemma next_control_outcome c io :
  (∃ c' io', next_control c io = Ok (c', io')) ∨
  next_control c io = Throw EofError.
Proof.
  unfold next_control. destruct (_ =? _); [|eauto].
  destruct (read_u8_outcome io) as [(b & io' & ->)| ->]; simpl; eauto.
Qed.

Lemma next_control_advanced c io c' io' :
  next_control c io = Ok (c', io') →
  buffer io' = buffer io ∧ (pos io ≤ pos io' ≤ Nat.max (pos io) (size io))%nat.
Proof.
  unfold next_control. destruct (_ =? _).
  - destruct (read_u8 io) as [[b io1]| |] eqn:Hr; simpl; [|done..].
    intros [= <- <-]. apply read_u8_advanced in Hr as (? & ? & ?).
    split; [done|lia].
  - intros [= <- <-]. split; [done|lia].
Qed.

Lemma next_control_extend extra c io c' io' :
  next_control c io = Ok (c', io') →
  next_control c (extend extra io) = Ok (c', extend extra io').
Proof.
  unfold next_control. destruct (_ =? _).
  - destruct (read_u8 io) as [[b io1]| |] eqn:Hr; simpl; [|done..].
    intros [= <- <-]. by rewrite (read_u8_extend _ _ _ _ Hr).
  - by intros [= <- <-].
Qed.

Lemma read_backref_outcome io :
  (∃ r l io', read_backref io = Ok (r, l, io')) ∨
  read_backref io = Throw EofError.
Proof.
  unfold read_backref.
  destruct (read_u16_le_outcome io) as [(tmp & io1 & ->)| ->]; simpl; [|by right].
  destruct (negb _).
  - left. unfold short_token. eauto.
  - destruct (read_u8_outcome io1) as [(b & io2 & ->)| ->]; simpl; [|by right].
    left. unfold long_token. eauto.
Qed.

Lemma read_backref_advanced io r l io' :
  read_backref io = Ok (r, l, io') →
  buffer io' = buffer io ∧ (pos io + 2 ≤ pos io' ≤ size io)%nat.
Proof.
  unfold read_backref.
  destruct (read_u16_le io) as [[tmp io1]| |] eqn:H16; simpl; [|done..].
  apply read_u16_le_Ok in H16 as (lo & hi & Hlo & Hhi & -> & ->).
  apply lookup_lt_Some in Hhi.
  destruct (negb _).
  - intros [= <- <- <-]. unfold size. simpl. split; [done|lia].
  - destruct (read_u8 _) as [[b io2]| |] eqn:H8; simpl; [|done..].
    intros [= <- <- <-]. apply read_u8_advanced in H8 as (? & ? & ?).
    unfold size in *. simpl in *. split; [done|lia].
Qed.

Lemma read_backref_extend extra io r l io' :
  read_backref io = Ok (r, l, io') →
  read_backref (extend extra io) = Ok (r, l, extend extra io').
Proof.
  unfold read_backref.
  destruct (read_u16_le io) as [[tmp io1]| |] eqn:H16; simpl; [|done..].
  rewrite (read_u16_le_extend _ _ _ _ H16). simpl.
  destruct (negb _).
  - by intros [= <- <- <-].
  - destruct (read_u8 io1) as [[b io2]| |] eqn:H8; simpl; [|done..].
    rewrite (read_u8_extend _ _ _ _ H8). simpl. by intros [= <- <- <-].
Qed.

(** The copy loops keep the buffer's size and stop at its end. *)
Lemma copy_within_length reps out ptr src :
  length (copy_within reps out ptr src).1 = length out.
Proof.
  revert out ptr src. induction reps as [|r IH]; intros out ptr src; simpl; [done|].
  destruct (_ <? _)%nat; [|done]. rewrite IH. apply length_insert.
Qed.

Lemma copy_within_ptr reps out ptr src :
  (copy_within reps out ptr src).2
  = Nat.min (ptr + reps) (Nat.max ptr (length out)).
Proof.
  revert out ptr src. induction reps as [|r IH]; intros out ptr src; simpl; [lia|].
  destruct (Nat.ltb_spec ptr (length out)); simpl; [|lia].
  rewrite IH, length_insert. lia.
Qed.

Lemma copy_literal_length src out ptr :
  length (copy_literal src out ptr).1 = length out.
Proof.
  revert out ptr. induction src as [|b src IH]; intros out ptr; simpl; [done|].
  destruct (_ <? _)%nat; [|done]. rewrite IH. apply length_insert.
Qed.

Lemma copy_literal_ptr src out ptr :
  (copy_literal src out ptr).2
  = Nat.min (ptr + length src) (Nat.max ptr (length out)).
Proof.
  revert out ptr. induction src as [|b src IH]; intros out ptr; simpl; [lia|].
  destruct (Nat.ltb_spec ptr (length out)); simpl; [|lia].
  rewrite IH, length_insert. lia.
Qed.

Lemma copy_backref_outcome r l out ptr :
  (∃ res, copy_backref r l out ptr = Ok res) ∨
  copy_backref r l out ptr = Throw BadDataOffsetError.
Proof. unfold copy_backref. destruct (_ <? _); eauto. Qed.

(** One iteration never runs out of fuel: it has no loop without a bound. *)
Lemma step_outcome st :
  (∃ st', step st = Ok st') ∨ (∃ e, step st = Throw e).
Proof.
  unfold step.
  destruct (next_control_outcome (control st) (input_io st))
    as [(c & io & ->)| ->]; simpl; [|eauto].
  destruct (negb _).
  - destruct (read_backref_outcome io) as [(r & l & io1 & ->)| ->]; simpl; [|eauto].
    destruct (copy_backref_outcome r l (output st) (output_ptr st))
      as [([out ptr] & ->)| ->]; simpl; eauto.
  - destruct (read_u8_outcome io) as [(n & io1 & ->)| ->]; simpl; [|eauto].
    destruct (read_outcome (Z.to_nat n) io1) as [(src & io2 & ->)| ->]; simpl; [|eauto].
    destruct (copy_literal _ _ _). eauto.
Qed.

(** A successful iteration reads at least one input byte, keeps the
    size of the output buffer and moves the output cursor forward, not
    past the end of the buffer. *)
Lemma step_advanced st st' :
  step st = Ok st' →
  buffer (input_io st') = buffer (input_io st) ∧
  (pos (input_io st) < pos (input_io st') ≤ size (input_io st))%nat ∧
  length (output st') = length (output st) ∧
  (output_ptr st ≤ output_ptr st' ≤ Nat.max (output_ptr st) (length (output st)))%nat.
Proof.
  unfold step.
  destruct (next_control _ _) as [[c io]| |] eqn:Hc; simpl; [|done..].
  apply next_control_advanced in Hc as [Hb Hp].
  destruct (negb _).
  - destruct (read_backref io) as [[[r l] io1]| |] eqn:Hr; simpl; [|done..].
    apply read_backref_advanced in Hr as (Hb1 & Hp1).
    unfold copy_backref. destruct (_ <? _); simpl; [done|].
    pose proof (copy_within_length (Z.to_nat r) (output st) (output_ptr st)
      (Z.to_nat (Z.of_nat (output_ptr st) - l))) as Hl.
    pose proof (copy_within_ptr (Z.to_nat r) (output st) (output_ptr st)
      (Z.to_nat (Z.of_nat (output_ptr st) - l))) as Hq.
    destruct (copy_within _ _ _ _) as [out ptr]. simpl in Hl, Hq.
    intros [= <-]. simpl. unfold size in *. rewrite Hb1, Hb in *.
    repeat split; try done; lia.
  - destruct (read_u8 io) as [[n io1]| |] eqn:H8; simpl; [|done..].
    apply read_u8_advanced in H8 as (Hb1 & Hp1 & Hs1).
    destruct (read _ io1) as [[src io2]| |] eqn:Hr; simpl; [|done..].
    apply read_Ok in Hr as (Hn & -> & ->).
    pose proof (copy_literal_length
      (take (Z.to_nat n) (drop (pos io1) (buffer io1))) (output st) (output_ptr st)) as Hl.
    pose proof (copy_literal_ptr
      (take (Z.to_nat n) (drop (pos io1) (buffer io1))) (output st) (output_ptr st)) as Hq.
    destruct (copy_literal _ _ _) as [out ptr]. simpl in Hl, Hq.
    intros [= <-]. simpl. unfold size in *. rewrite Hb1, Hb in *.
    repeat split; try done; lia.
Qed.

Lemma step_with_trailing extra st st' :
  step st = Ok st' → step (with_trailing extra st) = Ok (with_trailing extra st').
Proof.
  unfold step. simpl.
  destruct (next_control _ _) as [[c io]| |] eqn:Hc; simpl; [|done..].
  rewrite (next_control_extend _ _ _ _ _ Hc). simpl.
  destruct (negb _).
  - destruct (read_backref io) as [[[r l] io1]| |] eqn:Hr; simpl; [|done..].
    rewrite (read_backref_extend _ _ _ _ _ Hr). simpl.
    destruct (copy_backref _ _ _ _) as [[out ptr]| |]; simpl; [|done..].
    by intros [= <-].
  - destruct (read_u8 io) as [[n io1]| |] eqn:H8; simpl; [|done..].
    rewrite (read_u8_extend _ _ _ _ H8). simpl.
    destruct (read _ io1) as [[src io2]| |] eqn:Hr; simpl; [|done..].
    rewrite (read_extend _ _ _ _ _ Hr). simpl.
    destruct (copy_literal _ _ _) as [out ptr]. by intros [= <-].
Qed.

(** The fuel of [run] is never used up. *)
Lemma loop_fuel_enough fuel st :
  (remaining (input_io st) < fuel)%nat → loop fuel st ≠ OutOfFuel.
Proof.
  revert st. induction fuel as [|fuel IH]; intros st Hrem; [lia|].
  simpl. destruct (_ <? _)%nat; [|done].
  destruct (step_outcome st) as [[st' Hst]|[e Hst]]; rewrite Hst; simpl; [|done].
  apply IH. apply step_advanced in Hst as (Hb & Hp & _).
  unfold remaining, size in *. rewrite Hb. lia.
Qed.

Lemma loop_fuel_mono fuel fuel' st st' :
  loop fuel st = Ok st' → (fuel ≤ fuel')%nat → loop fuel' st = Ok st'.
Proof.
  revert fuel' st. induction fuel as [|fuel IH]; intros fuel' st; simpl.
  - destruct (_ <? _)%nat eqn:Hlt; [done|]. intros [= <-] _.
    destruct fuel'; simpl; by rewrite Hlt.
  - destruct (_ <? _)%nat eqn:Hlt.
    + destruct (step st) as [st1| |] eqn:Hst; simpl; [|done..].
      intros Hl Hf. destruct fuel' as [|fuel']; [lia|]. simpl.
      rewrite Hlt, Hst. simpl. apply IH; [done|lia].
    + intros [= <-] _. destruct fuel'; simpl; by rewrite Hlt.
Qed.

(** The loop leaves only when the cursor has reached the end of the
    output buffer, whose size it keeps. *)
Lemma loop_Ok fuel st st' :
  loop fuel st = Ok st' →
  length (output st') = length (output st) ∧
  ((output_ptr st ≤ length (output st))%nat → output_ptr st' = length (output st')).
Proof.
  revert st. induction fuel as [|fuel IH]; intros st; simpl.
  - destruct (Nat.ltb_spec (output_ptr st) (length (output st))); [done|].
    intros [= <-]. split; [done|lia].
  - destruct (Nat.ltb_spec (output_ptr st) (length (output st))).
    + destruct (step st) as [st1| |] eqn:Hst; simpl; [|done..].
      intros [Hl Hp]%IH. apply step_advanced in Hst as (_ & _ & Hl1 & Hp1).
      split; [congruence|]. intros _. apply Hp. lia.
    + intros [= <-]. split; [done|lia].
Qed.

Lemma loop_io fuel st st' :
  loop fuel st = Ok st' →
  buffer (input_io st') = buffer (input_io st) ∧
  (pos (input_io st) ≤ pos (input_io st') ≤
     Nat.max (pos (input_io st)) (size (input_io st)))%nat.
Proof.
  revert st. induction fuel as [|fuel IH]; intros st; simpl.
  - destruct (_ <? _)%nat; [done|]. intros [= <-]. split; [done|lia].
  - destruct (_ <? _)%nat; [|intros [= <-]; split; [done|lia]].
    destruct (step st) as [st1| |] eqn:Hst; simpl; [|done..].
    intros [Hb Hp]%IH. apply step_advanced in Hst as (Hb1 & Hp1 & _).
    unfold size in *. rewrite Hb1 in *. split; [done|lia].
Qed.

Lemma loop_with_trailing extra fuel st st' :
  loop fuel st = Ok st' →
  loop fuel (with_trailing extra st) = Ok (with_trailing extra st').
Proof.
  revert st. induction fuel as [|fuel IH]; intros st; simpl.
  - destruct (_ <? _)%nat; [done|]. by intros [= <-].
  - destruct (_ <? _)%nat; [|by intros [= <-]].
    destruct (step st) as [st1| |] eqn:Hst; simpl; [|done..].
    rewrite (step_with_trailing _ _ _ Hst). simpl. apply IH.
Qed.

Lemma run_outcome input size_orig :
  (∃ st, run input size_orig = Ok st) ∨ (∃ e, run input size_orig = Throw e).
Proof.
  destruct (run input size_orig) as [st|e|] eqn:Hrun; eauto.
  exfalso. revert Hrun. apply loop_fuel_enough.
  unfold remaining, size, init. simpl. lia.
Qed.

(** C1: for every well-formed compressed stream and declared size
    [size_orig], [decompress] returns a buffer of exactly [size_orig]
    bytes; its loop ends with the output cursor at the end of the buffer,
    and bytes that follow in the compressed stream stay unread: with any
    [extra] bytes appended the decoder ends in the same state, at the
    same read position. *)
Theorem decompress_fills_output (input : list Z) (size_orig : nat) :
  well_formed input size_orig →
  ∃ st, run input size_orig = Ok st ∧
        decompress input size_orig = Ok (output st) ∧
        length (output st) = size_orig ∧
        output_ptr st = size_orig ∧
        (pos (input_io st) ≤ length input)%nat ∧
        ∀ extra, run (input ++ extra) size_orig = Ok (with_trailing extra st) ∧
                 decompress (input ++ extra) size_orig = Ok (output st).
Proof.
  unfold well_formed, decompress. intros Hwf.
  destruct (run_outcome input size_orig) as [[st Hrun]|[e Hrun]];
    rewrite Hrun in Hwf; simpl in Hwf; [|done].
  exists st. rewrite Hrun. simpl. split; [done|]. split; [done|].
  pose proof Hrun as Hfull. apply loop_Ok in Hfull as [Hl Hp].
  unfold init, bstr_sized in Hl, Hp. simpl in Hl, Hp.
  rewrite length_replicate in Hl, Hp.
  split; [done|]. split; [rewrite Hp; [done|lia]|].
  assert (Hext : ∀ extra, run (input ++ extra) size_orig = Ok (with_trailing extra st)).
  { intros extra. unfold run in *.
    apply (loop_with_trailing extra) in Hrun.
    eapply loop_fuel_mono; [exact Hrun|]. rewrite length_app. lia. }
  split.
  - apply loop_io in Hrun as [_ Hq]. unfold init, size in Hq. simpl in Hq. lia.
  - intros extra. rewrite Hext. done.
Qed.

(** *** Control bits *)

Lemma byte_high_bits (b m : Z) : is_byte b → 8 ≤ m → Z.testbit b m = false.
Proof.
  intros Hb Hm. unfold is_byte in Hb.
  destruct (Z.eq_dec b 0) as [->|Hne]; [apply Z.bits_0|].
  apply Z.bits_above_log2; [lia|].
  apply Z.log2_lt_pow2; [lia|].
  eapply Z.lt_le_trans with (2 ^ 8); [lia|].
  apply Z.pow_le_mono_r; lia.
Qed.

Lemma land_bit (x n : Z) :
  0 ≤ n → Z.land x (2 ^ n) = if Z.testbit x n then 2 ^ n else 0.
Proof.
  intros Hn. apply Z.bits_inj'. intros m Hm.
  rewrite Z.land_spec, Z.pow2_bits_eqb by done.
  destruct (Z.eqb_spec n m) as [->|Hne].
  - destruct (Z.testbit x m); simpl.
    + rewrite Z.pow2_bits_true; done.
    + by rewrite Z.bits_0.
  - rewrite andb_false_r. destruct (Z.testbit x n).
    + rewrite Z.pow2_bits_false; done.
    + by rewrite Z.bits_0.
Qed.

Lemma control_word_bit (b k m : Z) :
  is_byte b → 0 ≤ k → 0 ≤ m →
  Z.testbit (control_word b k) m
  = if m + k <? 8 then Z.testbit b (m + k) else m + k <? 16.
Proof.
  intros Hb Hk Hm. unfold control_word.
  rewrite Z.shiftr_spec, Z.lor_spec by done.
  change 0xFF00 with (Z.shiftl (Z.ones 8) 8).
  destruct (Z.ltb_spec (m + k) 8).
  - rewrite Z.shiftl_spec_low by lia. apply orb_false_r.
  - rewrite byte_high_bits by done. simpl.
    rewrite Z.shiftl_spec by lia.
    destruct (Z.ltb_spec (m + k) 16).
    + apply Z.ones_spec_low. lia.
    + apply Z.ones_spec_high. lia.
Qed.

(** C3, as the code has it: the control bits of a control byte are used
    least-significant bit first.  When the control word is used up, a
    fresh byte [b] is read and [0xFF00] is OR'd onto it; the [k]-th
    iteration after that (k = 0..7) takes bit [k] of [b] as its control
    bit, the control word moves on without a read while [k < 7], and
    after the eighth bit the next iteration reads a fresh control byte
    and ORs [0xFF00] onto it again. *)
Theorem control_bits_lsb_first (c b : Z) (io io1 : IO.t) :
  is_byte b →
  Z.land (Z.shiftr c 1) 0x100 = 0 →
  read_u8 io = Ok (b, io1) →
  next_control c io = Ok (Z.lor b 0xFF00, io1) ∧
  control_word b 0 = Z.lor b 0xFF00 ∧
  ∀ k, 0 ≤ k < 8 →
    Z.odd (control_word b k) = Z.testbit b k ∧
    ∀ io',
      next_control (control_word b k) io' =
        if k <? 7 then Ok (control_word b (k + 1), io')
        else '(b', io'') ← read_u8 io'; Ok (Z.lor b' 0xFF00, io'').
Proof.
  intros Hb Hc Hr. split; [|split].
  - unfold next_control. rewrite Hc. simpl. by rewrite Hr.
  - unfold control_word. apply Z.shiftr_0_r.
  - intros k Hk. split.
    + rewrite <- Z.bit0_odd, control_word_bit by (done || lia).
      rewrite Z.add_0_l. destruct (Z.ltb_spec k 8); [done|lia].
    + intros io'. unfold next_control.
      replace (Z.shiftr (control_word b k) 1) with (control_word b (k + 1))
        by (unfold control_word; rewrite Z.shiftr_shiftr by lia; done).
      change 0x100 with (2 ^ 8). rewrite land_bit by lia.
      rewrite control_word_bit by (done || lia).
      destruct (Z.ltb_spec (8 + (k + 1)) 8); [lia|].
      destruct (Z.ltb_spec (8 + (k + 1)) 16), (Z.ltb_spec k 7); try lia; done.
Qed.

(** C3, the claim as stated fails: with control byte [0x80] an
    MSB-first reader would take 1 as the first control bit; the decoder
    takes bit 0, which is 0, and decodes a literal run. *)
Lemma control_bits_not_msb_first :
  Z.testbit 0x80 7 = true ∧
  next_control 0 (IO.of_bytes [0x80; 1; 0xAA])
    = Ok (0xFF80, IO.mk [0x80; 1; 0xAA] 1) ∧
  Z.odd 0xFF80 = false ∧
  decompress [0x80; 1; 0xAA] 1 = Ok [0xAA].
Proof. repeat split; reflexivity. Qed.

(** *** Tokens *)

Lemma land_8 (x : Z) : Z.land x 8 = if Z.testbit x 3 then 8 else 0.
Proof. apply (land_bit x 3). lia. Qed.

Lemma shiftr_packed (w b : Z) :
  is_byte b → Z.shiftr (Z.lor (Z.shiftl w 8) b) 12 = Z.shiftr w 4.
Proof.
  intros Hb. rewrite Z.shiftr_lor, Z.shiftr_shiftl_r by lia.
  rewrite (Z.shiftr_div_pow2 b) by lia.
  rewrite Z.div_small by (unfold is_byte in Hb; lia).
  by rewrite Z.lor_0_r.
Qed.

Lemma land_1_odd (c : Z) : (Z.land c 1 =? 0) = negb (Z.odd c).
Proof.
  rewrite <- Z.bit0_odd. change 1 with (2 ^ 0). rewrite land_bit by done.
  by destruct (Z.testbit c 0).
Qed.

Lemma u16_le_bit3 lo hi : Z.testbit (u16_le lo hi) 3 = Z.testbit lo 3.
Proof.
  unfold u16_le. rewrite Z.lor_spec, Z.shiftl_spec_low by lia.
  apply orb_false_r.
Qed.

Lemma u16_le_low3 lo hi : Z.land (u16_le lo hi) 7 = Z.land lo 7.
Proof.
  unfold u16_le. apply Z.bits_inj'. intros m Hm.
  rewrite !Z.land_spec, Z.lor_spec.
  destruct (Z.ltb_spec m 8).
  - rewrite Z.shiftl_spec_low by lia. by rewrite orb_false_r.
  - replace (Z.testbit 7 m) with false; [by rewrite !andb_false_r|].
    symmetry. change 7 with (Z.ones 3). apply Z.ones_spec_high. lia.
Qed.

Lemma write_at_cons ptr b src (out : list Z) :
  (ptr < length out)%nat →
  write_at (S ptr) src (<[ptr:=b]> out) = write_at ptr (b :: src) out.
Proof.
  intros Hlt. unfold write_at. rewrite length_insert.
  rewrite (take_S_r _ _ b) by (by apply list_lookup_insert_eq).
  rewrite take_insert_ge by lia. rewrite drop_insert_lt by lia.
  replace (length out - ptr)%nat with (S (length out - S ptr)) by lia.
  simpl. rewrite <- app_assoc. simpl.
  by replace (ptr + S (length src))%nat with (S (ptr + length src)) by lia.
Qed.

(** The literal loop writes the bytes over the buffer from the cursor on
    and stops at the end of the buffer. *)
Lemma copy_literal_write_at src (out : list Z) ptr :
  (ptr ≤ length out)%nat →
  copy_literal src out ptr
  = (write_at ptr src out, Nat.min (ptr + length src) (length out)).
Proof.
  revert out ptr. induction src as [|b src IH]; intros out ptr Hle; simpl.
  - unfold write_at. simpl length. rewrite take_nil, Nat.add_0_r. simpl.
    rewrite take_drop. f_equal. lia.
  - destruct (Nat.ltb_spec ptr (length out)) as [Hlt|Hge].
    + rewrite IH by (rewrite length_insert; lia).
      rewrite write_at_cons, length_insert by done. f_equal. lia.
    + unfold write_at. replace (length out - ptr)%nat with 0%nat by lia.
      rewrite take_0, take_ge, drop_ge by lia. simpl.
      rewrite app_nil_r. f_equal. lia.
Qed.

Lemma step_token
    (st : state) (c : Z) (io : IO.t) (bytes rest : list Z) (tok : token) :
  next_control (control st) (input_io st) = Ok (c, io) →
  unread io = bytes ++ rest →
  Forall is_byte bytes →
  token_of (Z.odd c) bytes tok →
  (output_ptr st ≤ length (output st))%nat →
  step st =
    ('(out, ptr) ← exec_token tok (output st) (output_ptr st);
     Ok (mkState (advance (length bytes) io) c out ptr)).
Proof.
  intros Hc Hu Hbytes Htok Hptr. unfold step. rewrite Hc. simpl.
  rewrite land_1_odd.
  destruct Htok as [n lits Hn| lo hi Hb3| lo hi b Hb3 packed]; simpl.
  - apply read_u8_unread in Hu as [H8 Hu]. rewrite H8. simpl.
    apply read_u8_advanced in H8 as (_ & _ & Hpos).
    subst n. rewrite Nat2Z.id. apply read_unread in Hu as [-> _]; [|done]. simpl.
    rewrite copy_literal_write_at by done.
    by rewrite advance_advance.
  - unfold read_backref.
    apply read_u16_le_unread in Hu as [-> _]. simpl.
    fold (u16_le lo hi). rewrite land_8, u16_le_bit3, Hb3. simpl.
    unfold short_token. by rewrite u16_le_low3.
  - unfold read_backref.
    apply read_u16_le_unread in Hu as [-> Hu]. simpl.
    fold (u16_le lo hi). rewrite land_8, u16_le_bit3, Hb3. simpl.
    apply read_u8_unread in Hu as [-> _]. simpl.
    rewrite advance_advance. unfold long_token. fold packed.
    unfold packed at 3. rewrite shiftr_packed; [done|].
    apply Forall_cons_1 in Hbytes as [_ Hbytes].
    apply Forall_cons_1 in Hbytes as [_ Hbytes].
    by apply Forall_cons_1 in Hbytes as [Hb _].
Qed.

(** When the bytes fit before the end of the buffer they are all written. *)
Lemma write_at_fits ptr (bytes out : list Z) :
  (ptr + length bytes ≤ length out)%nat →
  write_at ptr bytes out = take ptr out ++ bytes ++ drop (ptr + length bytes) out.
Proof. intros Hfit. unfold write_at. by rewrite (take_ge bytes) by lia. Qed.

(** C2, the claim as stated fails: with room for one byte left, a
    literal run of two bytes is read whole and only its first byte is
    copied to the output. *)
Lemma literal_run_cut_at_output_end :
  token_of false [2; 0xAA; 0xBB] (Literal [0xAA; 0xBB]) ∧
  step (init [0x00; 2; 0xAA; 0xBB] 1)
    = Ok (mkState (IO.mk [0x00; 2; 0xAA; 0xBB] 4) 0xFF00 [0xAA] 1) ∧
  decompress [0x00; 2; 0xAA; 0xBB] 1 = Ok [0xAA].
Proof.
  split; [|split]; [|reflexivity..].
  apply (token_literal 2 [0xAA; 0xBB]). reflexivity.
Qed.

(** C2, as the code has it: one iteration of the decoder follows the
    token grammar.  When the bytes after the control bit are one token of
    the grammar (a count [N] and [N] literal bytes after a 0 bit; a short
    or a long back-reference after a 1 bit), [step] reads exactly those
    bytes and does what the token says: the literal bytes go verbatim
    over the output from the cursor on, as many of them as fit before the
    end of the buffer; a back-reference is copied with the decoded count
    and distance. *)
Theorem step_follows_token_grammar
    (st : state) (c : Z) (io : IO.t) (bytes rest : list Z) (tok : token) :
  next_control (control st) (input_io st) = Ok (c, io) →
  unread io = bytes ++ rest →
  Forall is_byte bytes →
  token_of (Z.odd c) bytes tok →
  (output_ptr st ≤ length (output st))%nat →
  step st =
    ('(out, ptr) ← exec_token tok (output st) (output_ptr st);
     Ok (mkState (advance (length bytes) io) c out ptr)).
Proof. apply step_token. Qed.

(** Well-formed streams exist for every output of up to 255 bytes: a
    control byte 0 and one literal run decode to the bytes of the run. *)
Lemma literal_stream_decodes (data : list Z) :
  (length data ≤ 255)%nat → Forall is_byte data →
  decompress (0 :: Z.of_nat (length data) :: data) (length data) = Ok data ∧
  well_formed (0 :: Z.of_nat (length data) :: data) (length data).
Proof.
  intros Hlen Hbytes.
  assert (decompress (0 :: Z.of_nat (length data) :: data) (length data) = Ok data)
    as Hrun; [|split; [done|unfold well_formed; by rewrite Hrun]].
  unfold decompress, run.
  set (input := 0 :: Z.of_nat (length data) :: data).
  destruct (decide (data = [])) as [->|Hne]; [reflexivity|].
  assert (0 < length data)%nat as Hpos by (destruct data; [done|simpl; lia]).
  cbn [loop]. unfold init at 1 2. cbn [output output_ptr]. unfold bstr_sized.
  rewrite length_replicate.
  destruct (Nat.ltb_spec 0 (length data)); [|lia].
  rewrite (step_token (init input (length data)) 0xFF00 (IO.mk input 1)
             (Z.of_nat (length data) :: data) [] (Literal data)).
  - cbn [exec_token mbind result_bind init output output_ptr]. unfold bstr_sized.
    rewrite length_replicate, Nat.add_0_l, Nat.min_id.
    assert (write_at 0 data (replicate (length data) 0) = data) as ->.
    { unfold write_at. rewrite length_replicate, take_0, Nat.sub_0_r, Nat.add_0_l.
      rewrite firstn_all, drop_ge by (rewrite length_replicate; lia).
      by rewrite app_nil_r. }
    simpl. destruct (length input); simpl;
      by destruct (Nat.ltb_spec (length data) (length data)); [lia|].
  - reflexivity.
  - subst input. unfold unread. simpl. by rewrite app_nil_r.
  - constructor; [byte_range|done].
  - by apply token_literal.
  - simpl. lia.
Qed.

(** *** Back-references *)

Lemma u16_le_add lo hi : is_byte lo → u16_le lo hi = lo + 256 * hi.
Proof.
  intros Hlo. unfold u16_le. rewrite <- Z.add_nocarry_lor.
  - rewrite Z.shiftl_mul_pow2 by lia. lia.
  - apply Z.bits_inj'. intros m Hm. rewrite Z.land_spec, Z.bits_0.
    destruct (Z.ltb_spec m 8).
    + rewrite Z.shiftl_spec_low by lia. apply andb_false_r.
    + by rewrite byte_high_bits.
Qed.

(** The distance of a back-reference is a 12-bit number. *)
Lemma read_backref_look_behind io r l io' :
  Forall is_byte (buffer io) →
  read_backref io = Ok (r, l, io') → 0 ≤ l < 4096.
Proof.
  intros Hbytes. unfold read_backref.
  destruct (read_u16_le io) as [[tmp io1]| |] eqn:H16; simpl; [|done..].
  apply read_u16_le_Ok in H16 as (lo & hi & Hlo & Hhi & -> & ->).
  assert (is_byte lo) as Hblo by (eapply Forall_lookup_1; eauto).
  assert (is_byte hi) as Hbhi by (eapply Forall_lookup_1; eauto).
  assert (Z.shiftr (u16_le lo hi) 4 = (lo + 256 * hi) / 16) as Hsh.
  { rewrite u16_le_add by done. by rewrite Z.shiftr_div_pow2 by lia. }
  assert (0 ≤ (lo + 256 * hi) / 16 < 4096) as Hrange.
  { unfold is_byte in *. split.
    - apply Z.div_pos; lia.
    - apply Z.div_lt_upper_bound; lia. }
  fold (u16_le lo hi). destruct (negb _).
  - unfold short_token. intros [= _ <- _]. by rewrite Hsh.
  - destruct (read_u8 _) as [[b io2]| |] eqn:H8; simpl; [|done..].
    apply read_u8_Ok in H8 as [Hb _]. simpl in Hb.
    assert (is_byte b) as Hbb by (eapply Forall_lookup_1; eauto).
    unfold long_token. intros [= _ <- _].
    rewrite shiftr_packed, Hsh by done. done.
Qed.

(** What the copy loop leaves in the buffer: bytes outside the copied
    range are untouched, and each copied byte equals the byte
    [ptr - src] positions before it in the result. *)
Lemma copy_within_lookup reps (out : list Z) ptr src :
  (src ≤ ptr)%nat →
  let res := copy_within reps out ptr src in
  (∀ i, (i < ptr)%nat → res.1 !! i = out !! i) ∧
  (∀ i, (res.2 ≤ i)%nat → res.1 !! i = out !! i) ∧
  (∀ i, (ptr ≤ i < res.2)%nat → res.1 !! i = res.1 !! (i - (ptr - src))%nat).
Proof.
  revert out ptr src. induction reps as [|r IH]; intros out ptr src Hsrc; simpl.
  - split; [done|]. split; [done|]. intros i Hi. lia.
  - destruct (Nat.ltb_spec ptr (length out)) as [Hlt|Hge]; simpl;
      [|split; [done|]; split; [done|]; intros i Hi; lia].
    pose proof (copy_within_ptr r (<[ptr:=out !!! src]> out) (S ptr) (S src)) as Hp.
    destruct (IH (<[ptr:=out !!! src]> out) (S ptr) (S src)) as (Ha & Hb & Hc); [lia|].
    set (res := copy_within r (<[ptr:=out !!! src]> out) (S ptr) (S src)) in *.
    split; [|split].
    + intros i Hi. rewrite Ha by lia. apply list_lookup_insert_ne. lia.
    + intros i Hi. rewrite Hb by done. apply list_lookup_insert_ne.
      rewrite length_insert in Hp. lia.
    + intros i Hi. destruct (decide (i = ptr)) as [->|Hne].
      * destruct (decide (src = ptr)) as [->|Hsp].
        { by replace (ptr - (ptr - ptr))%nat with ptr by lia. }
        replace (ptr - (ptr - src))%nat with src by lia.
        rewrite !Ha by lia.
        rewrite list_lookup_insert_eq by done.
        rewrite list_lookup_insert_ne by lia.
        symmetry. apply list_lookup_lookup_total_lt. lia.
      * replace (ptr - src)%nat with (S ptr - S src)%nat by lia.
        apply Hc. lia.
Qed.

(** C4: for a back-reference token, the iteration raises
    [BadDataOffsetError] exactly when the look-behind distance is larger
    than the number of bytes produced so far (the source would lie before
    the start of the output buffer); otherwise the copy takes place, up
    to the declared size at most: the cursor ends at
    [min (ptr + repetitions) size], every copied byte equals the byte
    [look_behind] positions before it, and the rest of the buffer is
    untouched. *)
Theorem step_backref (st : state) (c : Z) (io : IO.t) (r l : Z) (io' : IO.t) :
  Forall is_byte (buffer (input_io st)) →
  (output_ptr st ≤ length (output st))%nat →
  next_control (control st) (input_io st) = Ok (c, io) →
  Z.odd c = true →
  read_backref io = Ok (r, l, io') →
  (step st = Throw BadDataOffsetError ↔ Z.of_nat (output_ptr st) < l) ∧
  (l ≤ Z.of_nat (output_ptr st) →
   ∃ out',
     let ptr' := Nat.min (output_ptr st + Z.to_nat r) (length (output st)) in
     step st = Ok (mkState io' c out' ptr') ∧
     length out' = length (output st) ∧
     (∀ i, (output_ptr st ≤ i < ptr')%nat → out' !! i = out' !! (i - Z.to_nat l)%nat) ∧
     (∀ i, ¬ (output_ptr st ≤ i < ptr')%nat → out' !! i = output st !! i)).
Proof.
  intros Hbytes Hptr Hc Hodd Hr.
  assert (0 ≤ l < 4096) as Hl.
  { apply next_control_advanced in Hc as [Hb _].
    eapply read_backref_look_behind; [|exact Hr]. by rewrite Hb. }
  unfold step. rewrite Hc. simpl. rewrite land_1_odd, Hodd. simpl.
  rewrite Hr. simpl. unfold copy_backref.
  destruct (Z.ltb_spec (Z.of_nat (output_ptr st) - l) 0) as [Hlt|Hge]; simpl.
  - split; [split; [lia|done]|lia].
  - pose proof (copy_within_length (Z.to_nat r) (output st) (output_ptr st)
      (Z.to_nat (Z.of_nat (output_ptr st) - l))) as Hlen.
    pose proof (copy_within_ptr (Z.to_nat r) (output st) (output_ptr st)
      (Z.to_nat (Z.of_nat (output_ptr st) - l))) as Hp.
    destruct (copy_within_lookup (Z.to_nat r) (output st) (output_ptr st)
      (Z.to_nat (Z.of_nat (output_ptr st) - l))) as (Ha & Hb & Hcp); [lia|].
    destruct (copy_within _ _ _ _) as [out' ptr']. simpl in *.
    split; [split; [done|lia]|]. intros _.
    exists out'. subst ptr'.
    replace (Nat.max (output_ptr st) (length (output st)))
      with (length (output st)) in * by lia.
    split; [done|]. split; [done|]. split.
    + intros i Hi. rewrite Hcp by done. f_equal. lia.
    + intros i Hi. destruct (Nat.lt_ge_cases i (output_ptr st)); [by apply Ha|].
      apply Hb. lia.
Qed.

(** With look-behind 0 the source is the cursor itself: every byte is
    copied onto itself and only the cursor moves. *)
Lemma copy_within_self reps (out : list Z) ptr :
  copy_within reps out ptr ptr
  = (out, Nat.min (ptr + reps) (Nat.max ptr (length out))).
Proof.
  revert ptr. induction reps as [|r IH]; intros ptr; simpl.
  - f_equal. lia.
  - destruct (Nat.ltb_spec ptr (length out)) as [Hlt|Hge].
    + rewrite list_insert_id by (by apply list_lookup_lookup_total_lt).
      rewrite IH. f_equal. lia.
    + f_equal. lia.
Qed.

(** With a look-behind of at least the count, source and destination do
    not overlap: the loop copies a block of the bytes produced before. *)
Lemma copy_within_disjoint reps lb (out : list Z) ptr :
  (reps ≤ lb ≤ ptr)%nat → (ptr + reps ≤ length out)%nat →
  copy_within reps out ptr (ptr - lb)
  = (write_at ptr (take reps (drop (ptr - lb) out)) out, (ptr + reps)%nat).
Proof.
  intros Hlb Hlen.
  pose proof (copy_within_length reps out ptr (ptr - lb)) as Hl.
  pose proof (copy_within_ptr reps out ptr (ptr - lb)) as Hp.
  destruct (copy_within_lookup reps out ptr (ptr - lb)) as (Ha & Hb & Hc); [lia|].
  destruct (copy_within _ _ _ _) as [out' ptr']. simpl in *.
  assert (ptr' = (ptr + reps)%nat) as -> by lia. f_equal.
  assert (length (take reps (drop (ptr - lb) out)) = reps) as Htl.
  { rewrite length_take, length_drop. lia. }
  apply list_eq. intros i. unfold write_at. rewrite Htl.
  destruct (Nat.lt_ge_cases i ptr) as [Hi|Hi].
  - rewrite Ha by done. rewrite lookup_app_l by (rewrite length_take; lia).
    by rewrite lookup_take_lt.
  - rewrite lookup_app_r by (rewrite length_take; lia).
    rewrite length_take_le by lia.
    rewrite (take_ge _ (length out - ptr)) by lia.
    destruct (Nat.lt_ge_cases i (ptr + reps)) as [Hi2|Hi2].
    + rewrite lookup_app_l by lia.
      rewrite lookup_take_lt, lookup_drop by lia.
      rewrite Hc by lia. rewrite Ha by lia. f_equal. lia.
    + rewrite lookup_app_r by lia. rewrite Htl, lookup_drop.
      rewrite Hb by done. f_equal. lia.
Qed.

(** C5, the claim as stated fails: after eight literal bytes, the short
    token [0x0C 0x00] (count 8, look-behind 0) leaves the next eight
    bytes of the buffer as they were, zero, and does not repeat the eight
    bytes before them. *)
Lemma look_behind_0_copies_nothing :
  token_of true [0x0C; 0x00] (BackRef 8 0) ∧
  decompress [0x02; 8; 1; 2; 3; 4; 5; 6; 7; 8; 0x0C; 0x00] 16
    = Ok [1; 2; 3; 4; 5; 6; 7; 8; 0; 0; 0; 0; 0; 0; 0; 0] ∧
  decompress [0x02; 8; 1; 2; 3; 4; 5; 6; 7; 8; 0x0C; 0x00] 16
    ≠ Ok [1; 2; 3; 4; 5; 6; 7; 8; 1; 2; 3; 4; 5; 6; 7; 8].
Proof.
  split; [|split].
  - apply (token_short 0x0C 0x00). reflexivity.
  - reflexivity.
  - discriminate.
Qed.

(** C5, as the code has it: a short token with count bits [100] has
    repeat count 8.  With look-behind 0 (bytes [0x0C 0x00]) it moves the
    cursor 8 bytes on and leaves the buffer as it was; it is with
    look-behind 8 (bytes [0x8C 0x00]) that the 8 bytes produced last are
    copied forward. *)
Theorem short_token_count_8 (st : state) (c : Z) (io : IO.t) (rest : list Z) :
  next_control (control st) (input_io st) = Ok (c, io) →
  Z.odd c = true →
  (output_ptr st + 8 ≤ length (output st))%nat →
  (unread io = 0x0C :: 0x00 :: rest →
   step st = Ok (mkState (advance 2 io) c (output st) (output_ptr st + 8))) ∧
  (unread io = 0x8C :: 0x00 :: rest → (8 ≤ output_ptr st)%nat →
   step st = Ok (mkState (advance 2 io) c
                   (write_at (output_ptr st)
                      (take 8 (drop (output_ptr st - 8) (output st))) (output st))
                   (output_ptr st + 8))).
Proof.
  intros Hc Hodd Hlen. split.
  - intros Hu.
    rewrite (step_token st c io [0x0C; 0x00] rest (BackRef 8 0));
      try done; try lia.
    + unfold exec_token, copy_backref.
      replace (Z.of_nat (output_ptr st) - 0) with (Z.of_nat (output_ptr st)) by lia.
      destruct (Z.ltb_spec (Z.of_nat (output_ptr st)) 0); [lia|].
      rewrite Nat2Z.id, copy_within_self. simpl. do 2 f_equal. lia.
    + byte_list.
    + rewrite Hodd. apply (token_short 0x0C 0x00). reflexivity.
  - intros Hu Hptr.
    rewrite (step_token st c io [0x8C; 0x00] rest (BackRef 8 8));
      try done; try lia.
    + unfold exec_token, copy_backref.
      destruct (Z.ltb_spec (Z.of_nat (output_ptr st) - 8) 0); [lia|].
      replace (Z.to_nat (Z.of_nat (output_ptr st) - 8)) with (output_ptr st - 8)%nat by lia.
      change (Z.to_nat 8) with 8%nat.
      rewrite copy_within_disjoint by lia. done.
    + byte_list.
    + rewrite Hodd. apply (token_short 0x8C 0x00). reflexivity.
Qed.

(** *** The theorems at concrete inputs *)

Example decompress_literal :
  decompress [0x00; 3; 10; 20; 30] 3 = Ok [10; 20; 30].
Proof. reflexivity. Qed.

Example decompress_sample_stream :
  decompress sample_stream 6 = Ok [10; 20; 10; 20; 10; 20].
Proof. reflexivity. Qed.

Example decompress_truncated :
  decompress [0x00; 3; 10; 20] 3 = Throw EofError.
Proof. reflexivity. Qed.

Example decompress_bad_offset :
  decompress [0x01; 0x3C; 0x00] 8 = Throw BadDataOffsetError.
Proof. reflexivity. Qed.

Lemma decompress_fills_output_witness :
  well_formed sample_stream 6 ∧
  ∃ st, run sample_stream 6 = Ok st ∧
        decompress sample_stream 6 = Ok (output st) ∧
        length (output st) = 6%nat ∧
        output_ptr st = 6%nat ∧
        (pos (input_io st) ≤ length sample_stream)%nat ∧
        ∀ extra, run (sample_stream ++ extra) 6 = Ok (with_trailing extra st) ∧
                 decompress (sample_stream ++ extra) 6 = Ok (output st).
Proof.
  split; [reflexivity|].
  apply (decompress_fills_output sample_stream 6). reflexivity.
Defined.

Lemma control_bits_lsb_first_witness :
  is_byte 0x02 ∧
  Z.land (Z.shiftr 0 1) 0x100 = 0 ∧
  read_u8 (IO.of_bytes sample_stream) = Ok (0x02, IO.mk sample_stream 1) ∧
  next_control 0 (IO.of_bytes sample_stream)
    = Ok (Z.lor 0x02 0xFF00, IO.mk sample_stream 1) ∧
  control_word 0x02 0 = Z.lor 0x02 0xFF00 ∧
  ∀ k, 0 ≤ k < 8 →
    Z.odd (control_word 0x02 k) = Z.testbit 0x02 k ∧
    ∀ io',
      next_control (control_word 0x02 k) io' =
        if k <? 7 then Ok (control_word 0x02 (k + 1), io')
        else '(b', io'') ← read_u8 io'; Ok (Z.lor b' 0xFF00, io'').
Proof.
  split; [byte_range|]. split; [reflexivity|]. split; [reflexivity|].
  apply (control_bits_lsb_first 0 0x02 (IO.of_bytes sample_stream)
           (IO.mk sample_stream 1)); [byte_range|reflexivity..].
Defined.

Lemma step_follows_token_grammar_witness :
  next_control (control sample_start) (input_io sample_start)
    = Ok (0xFF02, IO.mk sample_stream 1) ∧
  unread (IO.mk sample_stream 1) = [2; 10; 20] ++ [0x2C; 0x00] ∧
  Forall is_byte [2; 10; 20] ∧
  token_of (Z.odd 0xFF02) [2; 10; 20] (Literal [10; 20]) ∧
  (output_ptr sample_start ≤ length (output sample_start))%nat ∧
  step sample_start =
    ('(out, ptr) ← exec_token (Literal [10; 20]) (output sample_start)
                     (output_ptr sample_start);
     Ok (mkState (advance (length [2; 10; 20]) (IO.mk sample_stream 1)) 0xFF02 out ptr)).
Proof.
  assert (Forall is_byte [2; 10; 20]) as Hbytes
    by byte_list.
  assert (token_of (Z.odd 0xFF02) [2; 10; 20] (Literal [10; 20])) as Htok
    by (apply (token_literal 2 [10; 20]); reflexivity).
  split; [reflexivity|]. split; [reflexivity|]. split; [exact Hbytes|].
  split; [exact Htok|]. split; [simpl; lia|].
  apply (step_follows_token_grammar sample_start 0xFF02 (IO.mk sample_stream 1)
           [2; 10; 20] [0x2C; 0x00]); [reflexivity|reflexivity|exact Hbytes|exact Htok|].
  simpl. lia.
Defined.

Lemma step_backref_witness :
  Forall is_byte (buffer (input_io sample_middle)) ∧
  (output_ptr sample_middle ≤ length (output sample_middle))%nat ∧
  next_control (control sample_middle) (input_io sample_middle)
    = Ok (0x7F81, IO.mk sample_stream 4) ∧
  Z.odd 0x7F81 = true ∧
  read_backref (IO.mk sample_stream 4) = Ok (8, 2, IO.mk sample_stream 6) ∧
  (step sample_middle = Throw BadDataOffsetError ↔ Z.of_nat (output_ptr sample_middle) < 2) ∧
  (2 ≤ Z.of_nat (output_ptr sample_middle) →
   ∃ out',
     let ptr' := Nat.min (output_ptr sample_middle + Z.to_nat 8)
                   (length (output sample_middle)) in
     step sample_middle = Ok (mkState (IO.mk sample_stream 6) 0x7F81 out' ptr') ∧
     length out' = length (output sample_middle) ∧
     (∀ i, (output_ptr sample_middle ≤ i < ptr')%nat →
           out' !! i = out' !! (i - Z.to_nat 2)%nat) ∧
     (∀ i, ¬ (output_ptr sample_middle ≤ i < ptr')%nat →
           out' !! i = output sample_middle !! i)).
Proof.
  assert (Forall is_byte (buffer (input_io sample_middle))) as Hbytes
    by byte_list.
  split; [exact Hbytes|]. split; [simpl; lia|]. split; [reflexivity|].
  split; [reflexivity|]. split; [reflexivity|].
  apply (step_backref sample_middle 0x7F81 (IO.mk sample_stream 4) 8 2
           (IO.mk sample_stream 6)); [exact Hbytes|simpl; lia|reflexivity..].
Defined.

Lemma short_token_count_8_witness :
  next_control (control sample_after_8) (input_io sample_after_8)
    = Ok (0x7F81, input_io sample_after_8) ∧
  Z.odd 0x7F81 = true ∧
  (output_ptr sample_after_8 + 8 ≤ length (output sample_after_8))%nat ∧
  unread (input_io sample_after_8) = 0x8C :: 0x00 :: [] ∧
  (8 ≤ output_ptr sample_after_8)%nat ∧
  step sample_after_8
  = Ok (mkState (advance 2 (input_io sample_after_8)) 0x7F81
          [1; 2; 3; 4; 5; 6; 7; 8; 1; 2; 3; 4; 5; 6; 7; 8] 16).
Proof.
  split; [reflexivity|]. split; [reflexivity|]. split; [simpl; lia|].
  split; [reflexivity|]. split; [simpl; lia|].
  apply (short_token_count_8 sample_after_8 0x7F81 (input_io sample_after_8) []);
    [reflexivity|reflexivity|simpl; lia|reflexivity|simpl; lia].
Defined.

End PgdFacts.

(** ** PGD: the delta line filter *)

Module DeltaFacts.
Import Delta.

Lemma u8_byte (b : Z) : is_byte b → u8 b = b.
Proof. intros Hb. apply Z.mod_small. exact Hb. Qed.

Lemma u8_is_byte (z : Z) : is_byte (u8 z).
Proof. unfold is_byte, u8. apply Z.mod_pos_bound. lia. Qed.

(** Subtracting the stored difference from the prediction gives back
    the byte that was predicted. *)
Lemma u8_sub_sub (a o : Z) : is_byte o → u8 (a - u8 (a - o)) = o.
Proof.
  intros Ho. unfold u8. rewrite Zminus_mod_idemp_r.
  replace (a - (a - o)) with o by lia. apply Z.mod_small. exact Ho.
Qed.

Lemma rebuilt_lookup target d a k (out : list Z) i :
  rebuilt target d a k out !! i
  = (λ b, if decide (d + a ≤ i < d + k)%nat then target (i - d)%nat else b)
      <$> out !! i.
Proof. unfold rebuilt. apply list_lookup_imap. Qed.

Lemma rebuilt_length target d a k (out : list Z) :
  length (rebuilt target d a k out) = length out.
Proof. unfold rebuilt. apply length_imap. Qed.

Lemma rebuilt_lookup_total target d a k (out : list Z) i :
  (i < length out)%nat →
  rebuilt target d a k out !!! i
  = if decide (d + a ≤ i < d + k)%nat then target (i - d)%nat else out !!! i.
Proof.
  intros Hi. apply list_lookup_total_correct. rewrite rebuilt_lookup.
  rewrite (list_lookup_lookup_total_lt out i) by done. done.
Qed.

Lemma rebuilt_empty target d a (out : list Z) : rebuilt target d a a out = out.
Proof.
  apply list_eq. intros i. rewrite rebuilt_lookup.
  destruct (out !! i); simpl; [|done]. case_decide; [lia|done].
Qed.

Lemma rebuilt_insert target d a k (out : list Z) :
  (a ≤ k)%nat → (d + k < length out)%nat →
  <[(d + k)%nat := target k]> (rebuilt target d a k out)
  = rebuilt target d a (S k) out.
Proof.
  intros Hak Hk. apply list_eq. intros i.
  destruct (decide (i = d + k)%nat) as [->|Hne].
  - rewrite list_lookup_insert_eq by (by rewrite rebuilt_length).
    rewrite rebuilt_lookup, (list_lookup_lookup_total_lt out) by done. simpl.
    case_decide; [|lia]. f_equal. f_equal. lia.
  - rewrite list_lookup_insert_ne by done. rewrite !rebuilt_lookup.
    destruct (out !! i); simpl; [|done].
    repeat case_decide; try lia; done.
Qed.

(** A row loop whose every store writes the intended byte rebuilds the
    row. *)
Lemma row_loop_rebuilt value d target (out : list Z) a n :
  (∀ k, (a ≤ k < a + n)%nat → (d + k < length out)%nat) →
  (∀ k, (a ≤ k < a + n)%nat → u8 (value (rebuilt target d a k out) k) = target k) →
  row_loop value d (seq a n) out = rebuilt target d a (a + n) out.
Proof.
  induction n as [|n IH]; intros Hlen Hval.
  - simpl. by rewrite Nat.add_0_r, rebuilt_empty.
  - rewrite seq_S. unfold row_loop in *. rewrite fold_left_app. simpl.
    rewrite IH.
    + rewrite Hval by lia. rewrite rebuilt_insert; [|lia|apply Hlen; lia].
      f_equal. lia.
    + intros k Hk. apply Hlen. lia.
    + intros k Hk. apply Hval. lia.
Qed.

Lemma forward_lookup_total code channels above (orig : list Z) x :
  (x < length orig)%nat →
  forward code channels above orig !!! x
  = if code =? 1 then
      if (x <? channels)%nat then orig !!! x
      else u8 (orig !!! (x - channels)%nat - orig !!! x)
    else if code =? 2 then u8 (above x - orig !!! x)
    else if (x <? channels)%nat then orig !!! x
         else u8 ((above x + orig !!! (x - channels)%nat) ÷ 2 - orig !!! x).
Proof.
  intros Hx. apply list_lookup_total_correct. unfold forward.
  rewrite list_lookup_imap, (list_lookup_lookup_total_lt orig x) by done.
  done.
Qed.

Lemma forward_length code channels above (orig : list Z) :
  length (forward code channels above orig) = length orig.
Proof. apply length_imap. Qed.

(** What a row loop leaves in the buffer: bytes outside the range it
    runs over are untouched, and the byte at [d + k] is the value computed
    in the buffer as it was when [k] came up, [cur]: rebuilt before
    [d + k], as at the start from [d + k] on. *)
Lemma row_loop_lookup value d a n (out : list Z) :
  let res := row_loop value d (seq a n) out in
  length res = length out ∧
  (∀ i, ¬ (d + a ≤ i < d + a + n)%nat → res !! i = out !! i) ∧
  (∀ k, (a ≤ k < a + n)%nat → (d + k < length out)%nat →
     ∃ cur, res !!! (d + k)%nat = u8 (value cur k) ∧
            length cur = length out ∧
            (∀ i, (i < d + k)%nat → cur !! i = res !! i) ∧
            (∀ i, (d + k ≤ i)%nat → cur !! i = out !! i)).
Proof.
  induction n as [|n IH]; cbv zeta in *.
  - simpl. split; [done|]. split; [done|]. intros k Hk. lia.
  - rewrite seq_S. unfold row_loop in *. rewrite fold_left_app. simpl.
    destruct IH as (Hl & He & Hk).
    set (res := fold_left _ (seq a n) out) in *.
    split; [by rewrite length_insert|]. split.
    + intros i Hi. rewrite list_lookup_insert_ne by lia. apply He. lia.
    + intros k Hka Hkl. destruct (decide (k = a + n)%nat) as [->|Hne].
      * exists res. split; [|split; [done|split]].
        -- apply list_lookup_total_correct, list_lookup_insert_eq. lia.
        -- intros i Hi. by rewrite list_lookup_insert_ne by lia.
        -- intros i Hi. apply He. lia.
      * destruct (Hk k) as (cur & Hv & Hcl & Hbefore & Hafter); [lia|done|].
        exists cur. split; [|split; [done|split; [|done]]].
        -- rewrite <- Hv. rewrite !list_lookup_total_alt.
           by rewrite list_lookup_insert_ne by lia.
        -- intros i Hi. rewrite list_lookup_insert_ne by lia. by apply Hbefore.
Qed.

Section Memory.

Variable outside : Z → Z.

Lemma row_lookup_total stride y (out : list Z) x :
  (x < stride)%nat → (y * stride + stride ≤ length out)%nat →
  row stride y out !!! x = out !!! (y * stride + x)%nat.
Proof.
  intros Hx Hlen. apply list_lookup_total_correct. unfold row.
  rewrite lookup_take_lt, lookup_drop by done.
  apply list_lookup_lookup_total_lt. lia.
Qed.

(** Rebuilding row [y] does not change what [prev_line] reads. *)
Lemma peek_rebuilt target d a k (out : list Z) (j : Z) :
  j < Z.of_nat d →
  peek outside (rebuilt target d a k out) j = peek outside out j.
Proof.
  intros Hj. unfold peek. rewrite rebuilt_length.
  destruct (_ && _) eqn:Hin; [|done].
  apply andb_true_iff in Hin as [H0 Hl]. apply Z.leb_le in H0. apply Z.ltb_lt in Hl.
  rewrite rebuilt_lookup_total by lia. case_decide; [lia|done].
Qed.

(** The rebuilt row is the original one when the bytes before the first
    rebuilt one are stored as they are. *)
Lemma row_rebuilt stride y a (out orig : list Z) :
  length orig = stride → (y * stride + stride ≤ length out)%nat →
  (∀ x, (x < a)%nat → (x < stride)%nat → out !!! (y * stride + x)%nat = orig !!! x) →
  row stride y (rebuilt (λ x, orig !!! x) (y * stride) a (a + (stride - a)) out) = orig.
Proof.
  intros Hlo Hlen Hpre. apply list_eq. intros x. unfold row.
  destruct (Nat.lt_ge_cases x stride) as [Hx|Hx].
  - rewrite lookup_take_lt, lookup_drop, rebuilt_lookup by done.
    rewrite (list_lookup_lookup_total_lt out) by lia. simpl.
    rewrite (list_lookup_lookup_total_lt orig) by lia. f_equal.
    case_decide.
    + f_equal. lia.
    + apply Hpre; lia.
  - rewrite lookup_take_ge by done. symmetry. apply lookup_ge_None. lia.
Qed.

Lemma rebuilt_elsewhere target stride y a (out : list Z) i :
  ¬ (y * stride ≤ i < y * stride + stride)%nat →
  rebuilt target (y * stride) a (a + (stride - a)) out !! i = out !! i.
Proof.
  intros Hi. rewrite rebuilt_lookup. destruct (out !! i); simpl; [|done].
  case_decide; [lia|done].
Qed.

Lemma filter_row_inverse
    (code : Z) (width channels y : nat) (out orig : list Z) :
  let stride := (width * channels)%nat in
  code = 1 ∨ code = 2 ∨ code = 4 →
  Forall is_byte orig →
  length orig = stride →
  (y * stride + stride ≤ length out)%nat →
  row stride y out = forward code channels (row_above outside stride y out) orig →
  ∃ out',
    filter_row outside code channels stride y out = Ok out' ∧
    row stride y out' = orig ∧
    length out' = length out ∧
    ∀ i, ¬ (y * stride ≤ i < y * stride + stride)%nat → out' !! i = out !! i.
Proof.
  intros stride Hcode Hbytes Hlo Hlen Hrow.
  assert (Hch : (0 < stride)%nat → (0 < channels)%nat) by (unfold stride; nia).
  clearbody stride.
  assert (Hst : ∀ x, (x < stride)%nat →
            out !!! (y * stride + x)%nat
            = forward code channels (row_above outside stride y out) orig !!! x).
  { intros x Hx. by rewrite <- Hrow, row_lookup_total. }
  assert (Hb : ∀ x, (x < stride)%nat → is_byte (orig !!! x)).
  { intros x Hx. eapply Forall_lookup_1; [exact Hbytes|].
    apply list_lookup_lookup_total_lt. lia. }
  set (d := (y * stride)%nat) in *.
  set (target := λ x : nat, orig !!! x).
  unfold filter_row. fold d.
  destruct Hcode as [->|[->| ->]]; simpl.
  - exists (rebuilt target d channels (channels + (stride - channels)) out).
    split; [|split; [|split]].
    + f_equal. unfold range. apply row_loop_rebuilt; [intros k Hk; lia|].
      intros k Hk. unfold value1, target.
      rewrite !rebuilt_lookup_total by lia.
      rewrite (decide_False (P := (d + channels ≤ d + k < d + k)%nat)) by lia.
      rewrite Hst, forward_lookup_total by lia. simpl.
      destruct (Nat.ltb_spec k channels); [lia|].
      replace (d + k - channels)%nat with (d + (k - channels))%nat by lia.
      case_decide as Hd2.
      * replace (d + (k - channels) - d)%nat with (k - channels)%nat by lia.
        apply u8_sub_sub, Hb. lia.
      * rewrite Hst, forward_lookup_total by lia. simpl.
        destruct (Nat.ltb_spec (k - channels) channels); [|lia].
        apply u8_sub_sub, Hb. lia.
    + apply row_rebuilt; [done..|]. intros x Hxa Hx.
      rewrite Hst, forward_lookup_total by lia. simpl.
      by destruct (Nat.ltb_spec x channels); [|lia].
    + apply rebuilt_length.
    + intros i Hi. by apply rebuilt_elsewhere.
  - exists (rebuilt target d 0 (0 + (stride - 0)) out).
    split; [|split; [|split]].
    + f_equal. unfold range. apply row_loop_rebuilt; [intros k Hk; lia|].
      intros k Hk. unfold value2, target.
      rewrite peek_rebuilt by lia.
      rewrite !rebuilt_lookup_total by lia.
      rewrite (decide_False (P := (d + 0 ≤ d + k < d + k)%nat)) by lia.
      rewrite Hst, forward_lookup_total by lia. simpl.
      unfold row_above. fold d. apply u8_sub_sub, Hb. lia.
    + apply row_rebuilt; [done..|]. intros x Hxa Hx. lia.
    + apply rebuilt_length.
    + intros i Hi. by apply rebuilt_elsewhere.
  - exists (rebuilt target d channels (channels + (stride - channels)) out).
    split; [|split; [|split]].
    + f_equal. unfold range. apply row_loop_rebuilt; [intros k Hk; lia|].
      intros k Hk. unfold value4, target.
      rewrite peek_rebuilt by lia.
      rewrite !rebuilt_lookup_total by lia.
      rewrite (decide_False (P := (d + channels ≤ d + k < d + k)%nat)) by lia.
      rewrite Hst, forward_lookup_total by lia. simpl.
      destruct (Nat.ltb_spec k channels); [lia|].
      replace (d + k - channels)%nat with (d + (k - channels))%nat by lia.
      unfold row_above. fold d.
      case_decide as Hd2.
      * replace (d + (k - channels) - d)%nat with (k - channels)%nat by lia.
        apply u8_sub_sub, Hb. lia.
      * rewrite (Hst (k - channels)%nat), forward_lookup_total by lia. simpl.
        destruct (Nat.ltb_spec (k - channels) channels); [|lia].
        apply u8_sub_sub, Hb. lia.
    + apply row_rebuilt; [done..|]. intros x Hxa Hx.
      rewrite Hst, forward_lookup_total by lia. simpl.
      by destruct (Nat.ltb_spec x channels); [|lia].
    + apply rebuilt_length.
    + intros i Hi. by apply rebuilt_elsewhere.
Qed.

(** The reconstruction of a row inverts the forward transform that was
    computed against the bytes the decoder reads as the row above: when
    row [y] of the buffer holds that forward transform of a row [orig] of
    bytes, for one of the codes 1, 2 and 4, [filter_row] puts [orig] back
    in row [y], byte for byte, and changes nothing else.  For a row with
    a row above it in the buffer those bytes are that row; for row 0 they
    are the memory before the buffer, not the all-zero row of the
    specification. *)
Theorem filter_row_inverts_forward
    (code : Z) (width channels y : nat) (out orig : list Z) :
  let stride := (width * channels)%nat in
  code = 1 ∨ code = 2 ∨ code = 4 →
  Forall is_byte orig →
  length orig = stride →
  (y * stride + stride ≤ length out)%nat →
  row stride y out = forward code channels (row_above outside stride y out) orig →
  ∃ out',
    filter_row outside code channels stride y out = Ok out' ∧
    row stride y out' = orig ∧
    length out' = length out ∧
    ∀ i, ¬ (y * stride ≤ i < y * stride + stride)%nat → out' !! i = out !! i.
Proof. apply filter_row_inverse. Qed.

Lemma peek_agree (cur out : list Z) (j : Z) :
  length cur = length out →
  (0 ≤ j → cur !! Z.to_nat j = out !! Z.to_nat j) →
  peek outside cur j = peek outside out j.
Proof.
  intros Hl Hj. unfold peek. rewrite Hl. destruct (_ && _) eqn:Hin; [|done].
  apply andb_true_iff in Hin as [H0 _]. apply Z.leb_le in H0.
  rewrite !list_lookup_total_alt. by rewrite Hj.
Qed.

(** The reconstruction formulas of the three codes, for any row: with
    code 1 a byte is the byte one channel group to its left minus the
    stored value, from the second channel group on; with code 2 the byte
    above minus the stored value; with code 4 the truncated mean of the
    byte above and the byte to the left, minus the stored value, from the
    second channel group on; any other code raises [CorruptDataError].
    The byte above is what [prev_line] reads, [row_above]: for row 0,
    memory outside the buffer. *)
Lemma filter_row_bytes (code : Z) (width channels y : nat) (out : list Z) :
  let stride := (width * channels)%nat in
  let d := (y * stride)%nat in
  (d + stride ≤ length out)%nat →
  match filter_row outside code channels stride y out with
  | Ok out' =>
      (code = 1 ∨ code = 2 ∨ code = 4) ∧
      length out' = length out ∧
      (∀ i, ¬ (d ≤ i < d + stride)%nat → out' !! i = out !! i) ∧
      ∀ x, (x < stride)%nat →
        out' !!! (d + x)%nat =
          if code =? 2 then
            u8 (row_above outside stride y out x - out !!! (d + x)%nat)
          else if (x <? channels)%nat then out !!! (d + x)%nat
          else if code =? 1 then
            u8 (out' !!! (d + x - channels)%nat - out !!! (d + x)%nat)
          else
            u8 ((row_above outside stride y out x + out' !!! (d + x - channels)%nat) ÷ 2
                - out !!! (d + x)%nat)
  | Throw e => e = CorruptDataError ∧ code ≠ 1 ∧ code ≠ 2 ∧ code ≠ 4
  | OutOfFuel => False
  end.
Proof.
  intros stride d Hlen.
  assert (Hch : (0 < stride)%nat → (0 < channels)%nat) by (unfold stride; nia).
  clearbody stride. unfold filter_row. fold d.
  destruct (Z.eqb_spec code 1) as [->|H1];
    [|destruct (Z.eqb_spec code 2) as [->|H2];
      [|destruct (Z.eqb_spec code 4) as [->|H4]; [|done]]].
  - split; [by left|]. unfold range.
    destruct (row_loop_lookup (value1 channels d) d channels (stride - channels) out)
      as (Hl & He & Hk).
    set (res := row_loop _ _ _ _) in *.
    split; [done|]. split; [intros i Hi; apply He; lia|].
    intros x Hx. simpl. destruct (Nat.ltb_spec x channels) as [Hxc|Hxc].
    + rewrite !list_lookup_total_alt. rewrite He by lia. done.
    + destruct (Hk x) as (cur & Hv & Hcl & Hbefore & Hafter); [lia..|].
      rewrite Hv. unfold value1. rewrite !list_lookup_total_alt.
      rewrite Hbefore by lia. rewrite Hafter by lia. done.
  - split; [by right; left|]. unfold range.
    destruct (row_loop_lookup (value2 outside stride d) d 0 (stride - 0) out)
      as (Hl & He & Hk).
    set (res := row_loop _ _ _ _) in *.
    split; [done|]. split; [intros i Hi; apply He; lia|].
    intros x Hx. simpl.
    destruct (Hk x) as (cur & Hv & Hcl & Hbefore & Hafter); [lia..|].
    rewrite Hv. unfold value2, row_above. fold d.
    rewrite (peek_agree cur out) by
      (try done; intros Hj; rewrite Hbefore by lia; apply He; lia).
    rewrite !list_lookup_total_alt. rewrite Hafter by lia. done.
  - split; [by right; right|]. unfold range.
    destruct (row_loop_lookup (value4 outside channels stride d) d channels
                (stride - channels) out)
      as (Hl & He & Hk).
    set (res := row_loop _ _ _ _) in *.
    split; [done|]. split; [intros i Hi; apply He; lia|].
    intros x Hx. simpl. destruct (Nat.ltb_spec x channels) as [Hxc|Hxc].
    + rewrite !list_lookup_total_alt. rewrite He by lia. done.
    + destruct (Hk x) as (cur & Hv & Hcl & Hbefore & Hafter); [lia..|].
      rewrite Hv. unfold value4, row_above. fold d.
      rewrite (peek_agree cur out) by
        (try done; intros Hj; rewrite Hbefore by lia; apply He; lia).
      rewrite !list_lookup_total_alt.
      rewrite Hbefore by lia. rewrite Hafter by lia. done.
Qed.

Lemma row_length stride y (out : list Z) :
  (y * stride + stride ≤ length out)%nat → length (row stride y out) = stride.
Proof. intros Hlen. unfold row. rewrite length_take, length_drop. lia. Qed.

(** The other direction: the forward transform of a reconstructed row is
    the stored row, so reconstruction and forward transform are inverse
    to each other on rows of bytes. *)
Lemma forward_inverts_filter_row
    (code : Z) (width channels y : nat) (out out' : list Z) :
  let stride := (width * channels)%nat in
  (y * stride + stride ≤ length out)%nat →
  Forall is_byte (row stride y out) →
  filter_row outside code channels stride y out = Ok out' →
  forward code channels (row_above outside stride y out) (row stride y out')
  = row stride y out.
Proof.
  intros stride Hlen Hbytes Hrun.
  pose proof (filter_row_bytes code width channels y out Hlen) as Hspec.
  fold stride in Hspec. rewrite Hrun in Hspec.
  destruct Hspec as (Hcode & Hl & _ & Hx).
  assert (Hch : (0 < stride)%nat → (0 < channels)%nat) by (unfold stride; nia).
  clearbody stride.
  assert (Hlen' : (y * stride + stride ≤ length out')%nat) by lia.
  apply (list_eq_same_length _ _ stride);
    [by apply row_length|by rewrite forward_length, row_length|].
  intros x v w Hxs Hv Hw.
  apply list_lookup_total_correct in Hv, Hw. subst v w.
  rewrite forward_lookup_total by (by rewrite row_length).
  assert (Hb : is_byte (out !!! (y * stride + x)%nat)).
  { rewrite <- row_lookup_total by done. eapply Forall_lookup_1; [exact Hbytes|].
    apply list_lookup_lookup_total_lt. by rewrite row_length. }
  rewrite !(row_lookup_total stride y out') by lia.
  rewrite (row_lookup_total stride y out) by lia.
  rewrite (Hx x Hxs).
  destruct Hcode as [->|[->| ->]]; simpl.
  - destruct (Nat.ltb_spec x channels); [done|].
    replace (y * stride + (x - channels))%nat
      with (y * stride + x - channels)%nat by lia.
    by apply u8_sub_sub.
  - by apply u8_sub_sub.
  - destruct (Nat.ltb_spec x channels); [done|].
    replace (y * stride + (x - channels))%nat
      with (y * stride + x - channels)%nat by lia.
    by apply u8_sub_sub.
Qed.

Lemma row_lookup stride y (out : list Z) x :
  (x < stride)%nat → row stride y out !! x = out !! (y * stride + x)%nat.
Proof. intros Hx. unfold row. by rewrite lookup_take_lt, lookup_drop. Qed.

Lemma forward_ext code channels above above' (orig : list Z) :
  (∀ x, (x < length orig)%nat → above x = above' x) →
  forward code channels above orig = forward code channels above' orig.
Proof.
  intros Hab. unfold forward. apply list_eq. intros x.
  rewrite !list_lookup_imap. destruct (orig !! x) as [v|] eqn:Hx; [|done].
  apply lookup_lt_Some in Hx. simpl. by rewrite Hab.
Qed.

(** The rows still to come, given a buffer whose first [k] rows are
    already those of [orig] and whose other bytes are still the stored
    ones. *)
Lemma filter_rows_inverse
    (delta_spec : list Z) (width height channels : nat) (orig stored : list Z) :
  let stride := (width * channels)%nat in
  (height * stride ≤ length orig)%nat →
  Forall is_byte orig →
  (∀ y, (y < height)%nat →
        delta_spec !!! y = 1 ∨ delta_spec !!! y = 2 ∨ delta_spec !!! y = 4) →
  encoded outside delta_spec channels stride height orig stored →
  ∀ n k (buf : list Z),
    (k + n = height)%nat →
    length buf = length orig →
    (∀ i, buf !! i = if decide (i < k * stride)%nat then orig !! i else stored !! i) →
    filter_rows outside delta_spec channels stride (seq k n) buf = Ok orig.
Proof.
  intros stride Hlen Hbytes Hcodes (Hsl & Hrows & Htail).
  induction n as [|n IH]; intros k buf Hk Hbl Hbuf; simpl.
  - f_equal. apply list_eq. intros i. rewrite Hbuf. case_decide; [done|].
    assert (k = height) as -> by lia.
    replace i with (height * stride + (i - height * stride))%nat by lia.
    by rewrite <- !lookup_drop, Htail.
  - assert (k < height)%nat as Hkh by lia.
    assert (k * stride + stride ≤ length orig)%nat as Hrow_in by nia.
    destruct (filter_row_inverse (delta_spec !!! k) width channels k buf
                (row stride k orig)) as (out' & Hrun & Hrow' & Hl' & Helse).
    + by apply Hcodes.
    + unfold row. by apply Forall_take, Forall_drop.
    + by apply row_length.
    + fold stride. lia.
    + fold stride.
      replace (row stride k buf) with (row stride k stored).
      * rewrite (Hrows k Hkh). apply forward_ext. intros x Hx.
        rewrite row_length in Hx by done. unfold row_above. symmetry.
        apply peek_agree; [done|]. intros Hj. rewrite Hbuf.
        case_decide; [done|lia].
      * apply list_eq. intros x. unfold row.
        destruct (Nat.lt_ge_cases x stride).
        -- rewrite !lookup_take_lt, !lookup_drop by done. rewrite Hbuf.
           case_decide; [lia|done].
        -- by rewrite !lookup_take_ge.
    + fold stride in Hrun, Hrow', Helse. rewrite Hrun. simpl.
      apply IH; [lia|lia|]. intros i.
      destruct (decide (k * stride ≤ i < k * stride + stride)%nat) as [Hin|Hout].
      * case_decide; [|lia].
        replace i with (k * stride + (i - k * stride))%nat by lia.
        rewrite <- !row_lookup by lia. by rewrite Hrow'.
      * rewrite (Helse i Hout), Hbuf. repeat case_decide; try done; lia.
Qed.

(** The whole filter undoes the forward transform of an image of bytes. *)
Lemma apply_delta_filter_inverse
    (delta_spec : list Z) (width height channels : nat) (orig stored : list Z) :
  length delta_spec = height →
  (width * height * channels ≤ length orig)%nat →
  Forall is_byte orig →
  (∀ y, (y < height)%nat →
        delta_spec !!! y = 1 ∨ delta_spec !!! y = 2 ∨ delta_spec !!! y = 4) →
  encoded outside delta_spec channels (width * channels) height orig stored →
  apply_delta_filter outside delta_spec stored width height channels = Ok orig.
Proof.
  intros Hspec Hlen Hbytes Hcodes Henc. unfold apply_delta_filter.
  pose proof Henc as (Hsl & _ & _).
  rewrite Hspec, Nat.eqb_refl. simpl.
  destruct (Nat.ltb_spec (length stored) (width * height * channels)); [lia|].
  unfold range. rewrite Nat.sub_0_r.
  apply (filter_rows_inverse delta_spec width height channels orig stored);
    try done; nia.
Qed.

End Memory.

(** The row above a row other than the first lies in the buffer; the
    row above the first is memory outside it. *)
Lemma row_above_inside outside stride y (out : list Z) x :
  (0 < y)%nat → (x < stride)%nat → (y * stride ≤ length out)%nat →
  row_above outside stride y out x = out !!! ((y - 1) * stride + x)%nat.
Proof.
  intros Hy Hx Hlen. unfold row_above, peek.
  destruct (Z.leb_spec 0 (Z.of_nat (y * stride) - Z.of_nat stride + Z.of_nat x)); [|nia].
  destruct (Z.ltb_spec (Z.of_nat (y * stride) - Z.of_nat stride + Z.of_nat x)
              (Z.of_nat (length out))); [|nia].
  simpl. f_equal. nia.
Qed.

Lemma row_above_row_0 outside stride (out : list Z) x :
  (x < stride)%nat →
  row_above outside stride 0 out x = outside (Z.of_nat x - Z.of_nat stride).
Proof.
  intros Hx. unfold row_above, peek. rewrite Nat.mul_0_l.
  destruct (Z.leb_spec 0 (Z.of_nat 0 - Z.of_nat stride + Z.of_nat x)); [lia|].
  simpl. f_equal. lia.
Qed.

(** A 2x2 image of one channel, rows filtered with codes 1 and 4. *)
Example encoded_image outside :
  encoded outside [1; 4] 1 (2 * 1) 2 [5; 7; 100; 50] [5; 254; 100; 3].
Proof.
  split; [reflexivity|]. split; [|reflexivity].
  intros [|[|y]] Hy; [reflexivity..|lia].
Qed.

Example decoded_image outside :
  apply_delta_filter outside [1; 4] [5; 254; 100; 3] 2 2 1 = Ok [5; 7; 100; 50].
Proof. reflexivity. Qed.

(** Scenario B of the specification: code 2, one channel, the byte above
    100 and the stored value 30 give 70. *)
Example vertical_prediction outside :
  apply_delta_filter outside [1; 2] [100; 30] 1 2 1 = Ok [100; 70].
Proof. reflexivity. Qed.

Example unknown_delta_filter outside :
  apply_delta_filter outside [1; 3] [100; 30] 1 2 1 = Throw CorruptDataError.
Proof. reflexivity. Qed.

Example delta_size_mismatch outside :
  apply_delta_filter outside [1] [100; 30] 1 2 1 = Throw BadDataSizeError.
Proof. reflexivity. Qed.

(** C6 at row 0 with code 2: a 1x1 image of one channel with stored
    byte 30.  The decoder subtracts 30 from the byte that lies just
    before its buffer, whatever it is: 226 if that byte is 0 as the
    all-zero virtual row would have it, 227 if it is 1. *)
Theorem row_0_reads_before_buffer :
  (∀ outside, apply_delta_filter outside [2] [30] 1 1 1
              = Ok [u8 (outside (-1) - 30)]) ∧
  apply_delta_filter (λ _, 0) [2] [30] 1 1 1 = Ok [226] ∧
  apply_delta_filter (λ _, 1) [2] [30] 1 1 1 = Ok [227].
Proof. split; [|split]; reflexivity. Qed.

(** C7 at row 0: the forward transform of the specification takes the
    all-zero row as the row above row 0, the decoder the [stride] bytes of
    memory before its buffer.  For a one-row image of eight bytes with
    code 2 the decoder returns the original row when that memory is zero,
    and not when it holds the header of the buffer's heap chunk; with
    code 4 on a row of nine zero bytes the byte of the header is averaged
    into the row. *)
Theorem row_0_not_inverted :
  let orig := [10; 20; 30; 40; 50; 60; 70; 80] in
  let stored := forward 2 1 (λ _, 0) orig in
  stored = [246; 236; 226; 216; 206; 196; 186; 176] ∧
  (∀ outside, apply_delta_filter outside [2] stored 8 1 1
              = Ok [u8 (outside (-8) - 246); u8 (outside (-7) - 236);
                    u8 (outside (-6) - 226); u8 (outside (-5) - 216);
                    u8 (outside (-4) - 206); u8 (outside (-3) - 196);
                    u8 (outside (-2) - 186); u8 (outside (-1) - 176)]) ∧
  apply_delta_filter (λ _, 0) [2] stored 8 1 1 = Ok orig ∧
  apply_delta_filter chunk_header [2] stored 8 1 1
  = Ok [43; 20; 30; 40; 50; 60; 70; 80] ∧
  forward 4 1 (λ _, 0) (replicate 9 0) = replicate 9 0 ∧
  apply_delta_filter chunk_header [4] (replicate 9 0) 9 1 1
  = Ok [0; 16; 8; 4; 2; 1; 0; 0; 0].
Proof. repeat split; reflexivity. Qed.

Lemma filter_row_inverts_forward_witness :
  (4 = 1 ∨ 4 = 2 ∨ 4 = 4) ∧
  Forall is_byte [100; 50] ∧
  length [100; 50] = (2 * 1)%nat ∧
  (1 * (2 * 1) + 2 * 1 ≤ length sample_buffer)%nat ∧
  row (2 * 1) 1 sample_buffer
    = forward 4 1 (row_above (λ _, 0) (2 * 1) 1 sample_buffer) [100; 50] ∧
  ∃ out',
    filter_row (λ _, 0) 4 1 (2 * 1) 1 sample_buffer = Ok out' ∧
    row (2 * 1) 1 out' = [100; 50] ∧
    length out' = length sample_buffer ∧
    ∀ i, ¬ (1 * (2 * 1) ≤ i < 1 * (2 * 1) + 2 * 1)%nat →
         out' !! i = sample_buffer !! i.
Proof.
  assert (Forall is_byte [100; 50]) as Hbytes
    by byte_list.
  split; [right; right; reflexivity|]. split; [exact Hbytes|].
  split; [reflexivity|]. split; [simpl; lia|]. split; [reflexivity|].
  apply (filter_row_inverts_forward (λ _, 0) 4 2 1 1 sample_buffer [100; 50]);
    [right; right; reflexivity|exact Hbytes|reflexivity|simpl; lia|reflexivity].
Defined.

End DeltaFacts.

(** ** TGA: the run-length decoder *)

Module TgaFacts.
Import IO IOFacts Tga.

Lemma concat_replicate_length (r : nat) (chunk : list Z) :
  length (concat (replicate r chunk)) = (r * length chunk)%nat.
Proof. induction r as [|r IH]; simpl; [done|]. rewrite length_app, IH. done. Qed.

Lemma repetitions_range (control : Z) :
  (1 ≤ Z.to_nat (Z.land control 0x7F + 1) ≤ 128)%nat.
Proof.
  change 0x7F with (Z.ones 7). rewrite Z.land_ones by lia.
  pose proof (Z.mod_pos_bound control (2 ^ 7)). lia.
Qed.

Lemma land_0x80 (control : Z) :
  (Z.land control 0x80 =? 0) = negb (Z.testbit control 7).
Proof.
  change 0x80 with (2 ^ 7). rewrite PgdFacts.land_bit by lia.
  by destruct (Z.testbit control 7).
Qed.

Section Growth.
Variable reserved : nat → nat.
Variable grown : nat → nat → nat → nat.

(** Appending keeps the capacity at or above the size, never lowers it,
    and leaves it alone when the bytes fit. *)
Lemma append_capacity chunk output :
  (length (bytes (append grown chunk output)) ≤ capacity (append grown chunk output))%nat ∧
  (capacity output ≤ capacity (append grown chunk output))%nat.
Proof.
  unfold append. simpl. rewrite length_app.
  destruct (Nat.leb_spec (length (bytes output) + length chunk) (capacity output)); lia.
Qed.

Lemma append_fits chunk output :
  (length (bytes output) + length chunk ≤ capacity output)%nat →
  append grown chunk output = mkBstr (bytes output ++ chunk) (capacity output).
Proof.
  intros Hfit. unfold append.
  by destruct (Nat.leb_spec (length (bytes output) + length chunk) (capacity output)); [|lia].
Qed.

Lemma append_chunk_bytes r chunk output :
  bytes (append_chunk grown r chunk output) = bytes output ++ concat (replicate r chunk).
Proof.
  revert output. induction r as [|r IH]; intros output; simpl.
  - by rewrite app_nil_r.
  - rewrite IH. unfold append. simpl. by rewrite <- app_assoc.
Qed.

Lemma append_chunk_capacity r chunk output :
  (length (bytes output) ≤ capacity output)%nat →
  (length (bytes (append_chunk grown r chunk output))
   ≤ capacity (append_chunk grown r chunk output))%nat ∧
  (capacity output ≤ capacity (append_chunk grown r chunk output))%nat.
Proof.
  revert output. induction r as [|r IH]; intros output Hcap; simpl; [lia|].
  pose proof (append_capacity chunk output) as [H1 H2].
  destruct (IH _ H1). lia.
Qed.

(** A literal run of [r] chunks is the next [r * channels] bytes of the
    stream. *)
Lemma read_chunks_unread r channels io output (data rest : list Z) :
  (pos io ≤ size io)%nat →
  length data = (r * channels)%nat →
  unread io = data ++ rest →
  ∃ output', read_chunks grown r channels io output
             = Ok (output', advance (r * channels) io) ∧
             bytes output' = bytes output ++ data.
Proof.
  revert io output data. induction r as [|r IH]; intros io output data Hpos Hl Hu.
  - simpl in *. destruct data; [|done]. rewrite app_nil_r. unfold advance.
    rewrite Nat.add_0_r. exists output. by destruct io.
  - simpl in Hl. simpl.
    rewrite <- (take_drop channels data), <- app_assoc in Hu.
    assert (length (take channels data) = channels) as Htl
      by (rewrite length_take; lia).
    pose proof Hu as Hu'. apply read_unread in Hu' as [Hr Hu']; [|done].
    rewrite Htl in Hr, Hu'. rewrite Hr. simpl.
    destruct (IH (advance channels io) (append grown (take channels data) output)
                (drop channels data)) as (output' & Hrun & Hbytes).
    + unfold advance, size in *. simpl.
      apply (f_equal length) in Hu. unfold unread in Hu.
      rewrite length_drop, !length_app, Htl in Hu. lia.
    + rewrite length_drop. lia.
    + done.
    + exists output'. rewrite Hrun, advance_advance. split; [done|].
      rewrite Hbytes. simpl. by rewrite <- app_assoc, take_drop.
Qed.

Lemma read_chunks_outcome r channels io output :
  (∃ res, read_chunks grown r channels io output = Ok res) ∨
  read_chunks grown r channels io output = Throw EofError.
Proof.
  revert io output. induction r as [|r IH]; intros io output; simpl; [eauto|].
  destruct (read_outcome channels io) as [(chunk & io' & ->)| ->]; simpl; [|eauto].
  apply IH.
Qed.

Lemma read_chunks_advanced r channels io output output' io' :
  read_chunks grown r channels io output = Ok (output', io') →
  buffer io' = buffer io ∧
  (pos io ≤ pos io' ≤ Nat.max (pos io) (size io))%nat ∧
  (∃ added, bytes output' = bytes output ++ added ∧
            length added = (r * channels)%nat) ∧
  ((length (bytes output) ≤ capacity output)%nat →
   (length (bytes output') ≤ capacity output')%nat ∧
   (capacity output ≤ capacity output')%nat).
Proof.
  revert io output. induction r as [|r IH]; intros io output; simpl.
  - intros [= <- <-]. split; [done|]. split; [lia|]. split; [|lia].
    exists []. by rewrite app_nil_r.
  - destruct (read channels io) as [[chunk io1]| |] eqn:Hr; simpl; [|done..].
    apply read_Ok in Hr as (Hn & -> & ->).
    intros (Hb & Hp & (added & Hbytes & Hl) & Hcap)%IH. unfold size in *. simpl in *.
    split; [done|]. split; [lia|]. split.
    + eexists. rewrite Hbytes, <- app_assoc. split; [done|].
      rewrite length_app, length_take, length_drop. lia.
    + intros _.
      pose proof (append_capacity (take channels (drop (pos io) (buffer io))) output)
        as [H1 H2].
      unfold append in *. simpl in *. destruct (Hcap H1). lia.
Qed.

Lemma packet_outcome channels io output :
  (∃ res, packet grown channels io output = Ok res) ∨
  packet grown channels io output = Throw EofError.
Proof.
  unfold packet.
  destruct (read_u8_outcome io) as [(c & io1 & ->)| ->]; simpl; [|eauto].
  destruct (negb _).
  - destruct (read_outcome channels io1) as [(chunk & io2 & ->)| ->]; simpl; eauto.
  - apply read_chunks_outcome.
Qed.

(** A packet reads at least its control byte and appends between 1 and
    128 chunks of [channels] bytes. *)
Lemma packet_advanced channels io output output' io' :
  packet grown channels io output = Ok (output', io') →
  buffer io' = buffer io ∧
  (pos io < pos io' ≤ size io)%nat ∧
  (∃ count added, (1 ≤ count ≤ 128)%nat ∧
                  bytes output' = bytes output ++ added ∧
                  length added = (count * channels)%nat) ∧
  ((length (bytes output) ≤ capacity output)%nat →
   (length (bytes output') ≤ capacity output')%nat ∧
   (capacity output ≤ capacity output')%nat).
Proof.
  unfold packet.
  destruct (read_u8 io) as [[c io1]| |] eqn:H8; simpl; [|done..].
  apply read_u8_advanced in H8 as (Hb1 & Hp1 & Hs1).
  pose proof (repetitions_range c) as Hrep.
  destruct (negb _).
  - destruct (read channels io1) as [[chunk io2]| |] eqn:Hr; simpl; [|done..].
    apply read_Ok in Hr as (Hn & -> & ->). intros [= <- <-]. simpl.
    unfold size in *. rewrite Hb1 in *. split; [done|]. split; [lia|]. split.
    + eexists _, _. split; [exact Hrep|].
      rewrite append_chunk_bytes. split; [done|].
      rewrite concat_replicate_length, length_take, length_drop. f_equal. lia.
    + apply append_chunk_capacity.
  - intros (Hb & Hp & (added & Hbytes & Hl) & Hcap)%read_chunks_advanced.
    unfold size in *. rewrite Hb1 in *. split; [done|]. split; [lia|]. split; [|done].
    eexists _, _. split; [exact Hrep|]. done.
Qed.

(** X9: what a packet appends.  With the high bit of the control byte
    set, one chunk of [channels] bytes is read and appended [count] times
    over, otherwise the next [count] chunks are appended as they are, for
    [count] the low seven bits of the control byte plus 1; the stream is
    left after the last byte read. *)
Lemma packet_semantics channels io output control body rest :
  unread io = control :: body ++ rest →
  let count := Z.to_nat (Z.land control 0x7F + 1) in
  (Z.testbit control 7 = true → length body = channels →
   ∃ output', packet grown channels io output
              = Ok (output', advance (1 + channels) io) ∧
              bytes output' = bytes output ++ concat (replicate count body)) ∧
  (Z.testbit control 7 = false → length body = (count * channels)%nat →
   ∃ output', packet grown channels io output
              = Ok (output', advance (1 + count * channels) io) ∧
              bytes output' = bytes output ++ body).
Proof.
  intros Hu count.
  apply read_u8_unread in Hu as [H8 Hu].
  pose proof H8 as (_ & _ & Hpos)%read_u8_advanced.
  split; intros Hbit Hl; unfold packet; rewrite H8; simpl;
    rewrite land_0x80, Hbit; fold count; simpl.
  - subst channels. apply read_unread in Hu as [-> _]; [|done]. simpl.
    eexists. rewrite advance_advance. split; [done|]. apply append_chunk_bytes.
  - destruct (read_chunks_unread count channels (advance 1 io) output body rest)
      as (output' & -> & Hbytes); [done..|].
    exists output'. by rewrite advance_advance.
Qed.

(** The fuel of [read_compressed_pixel_data] is never used up. *)
Lemma packets_fuel_enough fuel channels io output :
  (remaining io < fuel)%nat → packets grown fuel channels io output ≠ OutOfFuel.
Proof.
  revert io output. induction fuel as [|fuel IH]; intros io output Hrem; [lia|].
  simpl. destruct (_ <? _)%nat; [|done].
  destruct (packet_outcome channels io output) as [([output' io'] & Hp)|Hp];
    rewrite Hp; simpl; [|done].
  apply IH. apply packet_advanced in Hp as (Hb & Hpos & _).
  unfold remaining, size in *. rewrite Hb. lia.
Qed.

Lemma packets_throws fuel channels io output e :
  packets grown fuel channels io output = Throw e → e = EofError.
Proof.
  revert io output. induction fuel as [|fuel IH]; intros io output; simpl.
  - by destruct (_ <? _)%nat.
  - destruct (_ <? _)%nat; [|done].
    destruct (packet_outcome channels io output) as [([output' io'] & Hp)|Hp];
      rewrite Hp; simpl; [apply IH|]. by intros [= <-].
Qed.

(** The loop ends when the buffer is full to its capacity of that
    moment, which is not below the capacity it started with. *)
Lemma packets_full fuel channels io output output' io' :
  packets grown fuel channels io output = Ok (output', io') →
  (length (bytes output) ≤ capacity output)%nat →
  length (bytes output') = capacity output' ∧
  (capacity output ≤ capacity output')%nat.
Proof.
  revert io output. induction fuel as [|fuel IH]; intros io output; simpl.
  - destruct (Nat.ltb_spec (length (bytes output)) (capacity output)); [done|].
    intros [= <- <-]. lia.
  - destruct (Nat.ltb_spec (length (bytes output)) (capacity output)).
    + destruct (packet grown channels io output) as [[output1 io1]| |] eqn:Hp;
        simpl; [|done..].
      apply packet_advanced in Hp as (_ & _ & _ & Hcap).
      intros Hrun Hle. destruct (Hcap Hle) as [H1 H2].
      destruct (IH _ _ Hrun H1). lia.
    + intros [= <- <-]. lia.
Qed.

(** X10: the run-length decoder always ends, whatever capacities the
    buffer picks: with the [EofError] of the stream, or with at least
    [width * height * channels] bytes. *)
Lemma read_compressed_pixel_data_outcome io width height channels :
  read_compressed_pixel_data reserved grown io width height channels = Throw EofError ∨
  ∃ output io',
    read_compressed_pixel_data reserved grown io width height channels
    = Ok (output, io') ∧
    (width * height * channels ≤ length output)%nat.
Proof.
  unfold read_compressed_pixel_data.
  destruct (packets _ _ _ _ _) as [[output io']|e|] eqn:Hrun; simpl.
  - right. exists (bytes output), io'. split; [done|].
    apply packets_full in Hrun as [Hfull Hcap]; [|simpl; lia].
    unfold reserve in Hcap. simpl in Hcap. lia.
  - left. by apply packets_throws in Hrun as ->.
  - exfalso. revert Hrun. apply packets_fuel_enough. lia.
Qed.

End Growth.

Lemma packet_semantics_witness :
  unread (IO.of_bytes [0x81; 0xAA]) = 0x81 :: [0xAA] ++ [] ∧
  Z.testbit 0x81 7 = true ∧
  length [0xAA] = 1%nat ∧
  ∃ output',
    packet vector_grown 1 (IO.of_bytes [0x81; 0xAA]) (reserve vector_reserved 1)
    = Ok (output', advance (1 + 1) (IO.of_bytes [0x81; 0xAA])) ∧
    bytes output'
    = bytes (reserve vector_reserved 1)
      ++ concat (replicate (Z.to_nat (Z.land 0x81 0x7F + 1)) [0xAA]).
Proof.
  split; [reflexivity|]. split; [reflexivity|]. split; [reflexivity|].
  apply (proj1 (packet_semantics vector_grown 1 (IO.of_bytes [0x81; 0xAA])
                  (reserve vector_reserved 1) 0x81 [0xAA] [] eq_refl));
    reflexivity.
Defined.

(** Streams whose packets fill the reserved capacity to the byte are
    decoded to [width * height * channels] bytes. *)
Example rle_exact_fit :
  read_compressed_pixel_data vector_reserved vector_grown
    (IO.of_bytes [0x00; 5; 0x81; 6; 7]) 3 1 1
  = Ok ([5; 6; 6], IO.mk [0x00; 5; 0x81; 6; 7] 4).
Proof. reflexivity. Qed.

(** C8 on a packet that runs past [width * height * channels]: a run of
    three for a 1x1 image of one channel.  The packet is appended whole,
    so the output exceeds the size of the image, whatever capacities the
    buffer picks; and the loop goes on reading packets unless the
    capacity has grown to just the three bytes.  With the growth of
    libstdc++'s [std::vector] the capacity is then 4: the decoder asks the
    exhausted stream for another packet and raises [EofError], and on the
    stream [00 05 81 06 00 09] for a 2x1 image it takes a third packet and
    returns four bytes. *)
Theorem rle_packet_overshoots :
  (∀ reserved grown,
     read_compressed_pixel_data reserved grown (IO.of_bytes [0x82; 0xAA]) 1 1 1
     = Throw EofError ∨
     read_compressed_pixel_data reserved grown (IO.of_bytes [0x82; 0xAA]) 1 1 1
     = Ok ([0xAA; 0xAA; 0xAA], IO.mk [0x82; 0xAA] 2)) ∧
  read_compressed_pixel_data vector_reserved vector_grown
    (IO.of_bytes [0x82; 0xAA]) 1 1 1 = Throw EofError ∧
  read_compressed_pixel_data vector_reserved vector_grown
    (IO.of_bytes [0x00; 5; 0x81; 6; 0x00; 9]) 2 1 1
  = Ok ([5; 6; 6; 9], IO.mk [0x00; 5; 0x81; 6; 0x00; 9] 6).
Proof.
  split; [|split; reflexivity].
  intros reserved grown. unfold read_compressed_pixel_data.
  set (out0 := reserve reserved (1 * 1 * 1)).
  assert (0 < capacity out0)%nat as Hcap0 by (unfold out0, reserve; simpl; lia).
  change (S (remaining (of_bytes [0x82; 0xAA]))) with 3%nat.
  cbn [packets]. change (length (bytes out0)) with 0%nat.
  destruct (Nat.ltb_spec 0 (capacity out0)); [|lia].
  change (packet grown 1 (of_bytes [0x82; 0xAA]) out0)
    with (Ok (append_chunk grown 3 [0xAA] out0, IO.mk [0x82; 0xAA] 2)).
  cbn [mbind result_bind].
  assert (bytes (append_chunk grown 3 [0xAA] out0) = [0xAA; 0xAA; 0xAA]) as Hbytes
    by reflexivity.
  destruct (append_chunk grown 3 [0xAA] out0) as [b1 c1]. simpl in Hbytes. subst b1.
  cbn [bytes capacity length].
  destruct (3 <? c1)%nat; [left|right]; reflexivity.
Qed.

End TgaFacts.

(** ** File type recognition *)

Module RecognitionFacts.
Import IO IOFacts.

(** The comparison with the magic bytes: an [EofError] of the stream
    when fewer bytes are left than the magic has, the comparison of the
    next bytes otherwise. *)
Lemma read_matches_eq magic io :
  read_matches magic io
  = if (pos io + length magic <=? size io)%nat
    then Ok (bool_decide (take (length magic) (unread io) = magic))
    else Throw EofError.
Proof. unfold read_matches, read, unread. by destruct (_ <=? _)%nat. Qed.

(** The comparison has no handler: an exception of the stream's [read]
    leaves it unchanged. *)
Lemma read_matches_propagates magic io e :
  read (length magic) io = Throw e → read_matches magic io = Throw e.
Proof. intros Hr. unfold read_matches. by rewrite Hr. Qed.

Lemma size_t_sub_ge (a b : nat) :
  Z.of_nat a < 2 ^ 64 → (b ≤ a)%nat → size_t_sub a b = Z.of_nat (a - b).
Proof. intros Ha Hb. unfold size_t_sub. rewrite Z.mod_small; lia. Qed.

Lemma size_t_sub_lt (a b : nat) :
  Z.of_nat b < 2 ^ 64 → (a < b)%nat → Z.of_nat a < size_t_sub a b.
Proof.
  intros Hb Hlt. unfold size_t_sub.
  replace (Z.of_nat a - Z.of_nat b) with ((Z.of_nat a - Z.of_nat b + 2 ^ 64) + (-1) * 2 ^ 64)
    by lia.
  rewrite Z.mod_add by lia. rewrite Z.mod_small; lia.
Qed.

(** The TGA probe: an [EofError] on a file shorter than the footer;
    otherwise the footer comparison, and the extension when it fails. *)
Lemma tga_is_recognized_impl_eq has_extension file :
  Z.of_nat (size (io file)) < 2 ^ 64 →
  Tga.is_recognized_impl has_extension file
  = if (18 <=? size (io file))%nat
    then Ok (bool_decide (drop (size (io file) - 18) (buffer (io file)) = Tga.magic)
             || has_extension (name file) "tga")
    else Throw EofError.
Proof.
  intros Hsz. unfold Tga.is_recognized_impl. change (length Tga.magic) with 18%nat.
  destruct (Nat.leb_spec 18 (size (io file))) as [Hge|Hlt].
  - rewrite size_t_sub_ge by done. unfold seek.
    destruct (Z.leb_spec 0 (Z.of_nat (size (io file) - 18))); [|lia].
    destruct (Z.leb_spec (Z.of_nat (size (io file) - 18)) (Z.of_nat (size (io file))));
      [|lia].
    simpl. rewrite Nat2Z.id, read_matches_eq.
    change (length Tga.magic) with 18%nat. unfold unread, size in *. simpl.
    destruct (Nat.leb_spec (length (buffer (io file)) - 18 + 18)
                (length (buffer (io file)))); [|lia].
    simpl. rewrite take_ge by (rewrite length_drop; lia).
    by destruct (bool_decide _).
  - pose proof (size_t_sub_lt (size (io file)) 18 ltac:(lia) Hlt) as Hoff.
    unfold seek.
    destruct (Z.leb_spec (size_t_sub (size (io file)) 18) (Z.of_nat (size (io file))));
      [lia|].
    by rewrite andb_false_r.
Qed.

(** Scenario D of the specification: a file that ends in the footer is
    recognized whatever its name. *)
Example tga_footer_recognized has_extension :
  Tga.is_recognized_impl has_extension
    (mkFile "a.bin" (IO.of_bytes ([1; 2; 3] ++ Tga.magic))) = Ok true.
Proof. reflexivity. Qed.



(** C10, the claim as stated fails: a file shorter than the 18-byte
    footer is not recognized by its name, the probe's [seek] raises
    before the name is looked at. *)
Lemma short_tga_file_not_recognized :
  Tga.has_extension_by_suffix "a.tga" "tga" = true ∧
  Tga.is_recognized_impl Tga.has_extension_by_suffix
    (mkFile "a.tga" (IO.of_bytes [1; 2; 3])) = Throw EofError.
Proof. split; reflexivity. Qed.

(** C10, as the code has it: a file of at least 18 bytes whose name has
    the extension [tga] is recognized whatever its bytes are, footer or
    not. *)
Theorem tga_recognized_by_name (has_extension : string → string → bool) (file : File) :
  Z.of_nat (size (io file)) < 2 ^ 64 →
  (18 ≤ size (io file))%nat →
  has_extension (name file) "tga" = true →
  Tga.is_recognized_impl has_extension file = Ok true.
Proof.
  intros Hsz Hlen Hext. rewrite tga_is_recognized_impl_eq by done.
  destruct (Nat.leb_spec 18 (size (io file))); [|lia].
  by rewrite Hext, orb_true_r.
Qed.


Lemma tga_recognized_by_name_witness :
  Z.of_nat (size (io sample_tga)) < 2 ^ 64 ∧
  (18 ≤ size (io sample_tga))%nat ∧
  Tga.has_extension_by_suffix (name sample_tga) "tga" = true ∧
  drop (size (io sample_tga) - 18) (buffer (io sample_tga)) ≠ Tga.magic ∧
  Tga.is_recognized_impl Tga.has_extension_by_suffix sample_tga = Ok true.
Proof.
  split; [reflexivity|]. split; [vm_compute; lia|]. split; [reflexivity|].
  split; [discriminate|].
  apply (tga_recognized_by_name Tga.has_extension_by_suffix sample_tga);
    [reflexivity|vm_compute; lia|reflexivity].
Defined.

End RecognitionFacts.

(** * Further properties *)

(** ** PGD: the back-reference decompressor *)

Module PgdMore.
Import IO IOFacts Pgd PgdFacts.

(** An iteration raises nothing but the end of the input and the bad
    offset of a back-reference. *)
Lemma step_throws st e :
  step st = Throw e → e = EofError ∨ e = BadDataOffsetError.
Proof.
  unfold step.
  destruct (next_control_outcome (control st) (input_io st))
    as [(c & io & ->)| ->]; simpl; [|intros [= <-]; by left].
  destruct (negb _).
  - destruct (read_backref_outcome io) as [(r & l & io1 & ->)| ->]; simpl;
      [|intros [= <-]; by left].
    destruct (copy_backref_outcome r l (output st) (output_ptr st))
      as [([out ptr] & ->)| ->]; simpl; [done|intros [= <-]; by right].
  - destruct (read_u8_outcome io) as [(n & io1 & ->)| ->]; simpl;
      [|intros [= <-]; by left].
    destruct (read_outcome (Z.to_nat n) io1) as [(src & io2 & ->)| ->]; simpl;
      [|intros [= <-]; by left].
    by destruct (copy_literal _ _ _).
Qed.

Lemma loop_throws fuel st e :
  loop fuel st = Throw e → e = EofError ∨ e = BadDataOffsetError.
Proof.
  revert st. induction fuel as [|fuel IH]; intros st; simpl.
  - by destruct (_ <? _)%nat.
  - destruct (_ <? _)%nat; [|done].
    destruct (step st) as [st'|e'|] eqn:Hst; simpl; [apply IH| |done].
    intros [= <-]. by apply step_throws in Hst.
Qed.

(** X1: [decompress] always ends, and in one of three ways: with a
    buffer of exactly the declared size, with [EofError] when the
    compressed stream ends early, or with [BadDataOffsetError].  A
    declared size of 0 gives the empty buffer without a read, and an
    empty stream with a positive declared size gives [EofError]. *)
Theorem decompress_outcome (input : list Z) (size_orig : nat) :
  ((∃ out, decompress input size_orig = Ok out ∧ length out = size_orig) ∨
   decompress input size_orig = Throw EofError ∨
   decompress input size_orig = Throw BadDataOffsetError) ∧
  decompress input 0 = Ok [] ∧
  decompress [] (S size_orig) = Throw EofError.
Proof.
  split; [|split].
  - unfold decompress.
    destruct (run_outcome input size_orig) as [[st Hrun]|[e Hrun]]; rewrite Hrun; simpl.
    + left. exists (output st). split; [done|].
      apply loop_Ok in Hrun as [Hl _]. rewrite Hl. unfold init, bstr_sized. simpl.
      apply length_replicate.
    + right. apply loop_throws in Hrun as [-> | ->]; auto.
  - reflexivity.
  - reflexivity.
Qed.

(** The copy loops only write bytes that they read from the run or from
    an earlier place of the buffer. *)
Lemma copy_literal_Forall (P : Z → Prop) src (out : list Z) ptr :
  Forall P src → Forall P out → Forall P (copy_literal src out ptr).1.
Proof.
  revert out ptr. induction src as [|b src IH]; intros out ptr Hsrc Hout; simpl; [done|].
  apply Forall_cons_1 in Hsrc as [Hb Hsrc].
  destruct (_ <? _)%nat; [|done]. apply IH; [done|]. by apply Forall_insert.
Qed.

Lemma copy_within_Forall (P : Z → Prop) reps (out : list Z) ptr src :
  (src ≤ ptr)%nat → Forall P out → Forall P (copy_within reps out ptr src).1.
Proof.
  revert out ptr src. induction reps as [|r IH]; intros out ptr src Hsrc Hout; simpl; [done|].
  destruct (Nat.ltb_spec ptr (length out)); [|done].
  apply IH; [lia|]. apply Forall_insert; [done|].
  eapply Forall_lookup_1; [exact Hout|]. apply list_lookup_lookup_total_lt. lia.
Qed.

Lemma step_Forall (P : Z → Prop) st st' :
  Forall is_byte (buffer (input_io st)) →
  Forall P (buffer (input_io st)) → Forall P (output st) →
  step st = Ok st' → Forall P (output st').
Proof.
  intros Hbytes Hin Hout. unfold step.
  destruct (next_control _ _) as [[c io]| |] eqn:Hc; simpl; [|done..].
  apply next_control_advanced in Hc as [Hb _].
  destruct (negb _).
  - destruct (read_backref io) as [[[r l] io1]| |] eqn:Hr; simpl; [|done..].
    apply read_backref_look_behind in Hr; [|by rewrite Hb].
    unfold copy_backref. destruct (Z.ltb_spec (Z.of_nat (output_ptr st) - l) 0);
      simpl; [done|].
    pose proof (copy_within_Forall P (Z.to_nat r) (output st) (output_ptr st)
      (Z.to_nat (Z.of_nat (output_ptr st) - l))) as HF.
    destruct (copy_within _ _ _ _) as [out ptr]. intros [= <-]. simpl.
    apply HF; [lia|done].
  - destruct (read_u8 io) as [[n io1]| |] eqn:H8; simpl; [|done..].
    apply read_u8_advanced in H8 as (Hb1 & _ & _).
    destruct (read _ io1) as [[src io2]| |] eqn:Hr; simpl; [|done..].
    apply read_Ok in Hr as (_ & -> & _).
    pose proof (copy_literal_Forall P (take (Z.to_nat n) (drop (pos io1) (buffer io1)))
      (output st) (output_ptr st)) as HF.
    destruct (copy_literal _ _ _) as [out ptr]. intros [= <-]. simpl.
    apply HF; [|done]. apply Forall_take, Forall_drop. by rewrite Hb1, Hb.
Qed.

Lemma loop_Forall (P : Z → Prop) fuel st st' :
  Forall is_byte (buffer (input_io st)) →
  Forall P (buffer (input_io st)) → Forall P (output st) →
  loop fuel st = Ok st' → Forall P (output st').
Proof.
  revert st. induction fuel as [|fuel IH]; intros st Hbytes Hin Hout; simpl.
  - destruct (_ <? _)%nat; [done|]. by intros [= <-].
  - destruct (_ <? _)%nat; [|by intros [= <-]].
    destruct (step st) as [st1| |] eqn:Hst; simpl; [|done..].
    pose proof (step_advanced _ _ Hst) as Hadv.
    assert (buffer (input_io st1) = buffer (input_io st)) as Hbuf by apply Hadv.
    apply IH; rewrite ?Hbuf; try done. by eapply step_Forall.
Qed.

(** X2: [decompress] invents no byte.  On a stream of bytes, every byte
    of the output is a byte of the compressed stream or the 0 of the
    freshly allocated buffer; in particular the output of a stream of
    bytes is a list of bytes. *)
Theorem decompress_bytes_from_input (input : list Z) (size_orig : nat) (out : list Z) :
  Forall is_byte input →
  decompress input size_orig = Ok out →
  Forall (λ b, b = 0 ∨ b ∈ input) out ∧ Forall is_byte out.
Proof.
  intros Hbytes. unfold decompress, run.
  destruct (loop _ _) as [st| |] eqn:Hloop; simpl; [|done..]. intros [= <-].
  split.
  - eapply loop_Forall; [..|exact Hloop]; simpl; [done| |].
    + apply Forall_forall. auto.
    + unfold bstr_sized. apply Forall_replicate. auto.
  - eapply loop_Forall; [..|exact Hloop]; simpl; [done|done|].
    unfold bstr_sized. apply Forall_replicate. byte_range.
Qed.

Lemma decompress_bytes_from_input_witness :
  Forall (λ b, b = 0 ∨ b ∈ sample_stream) [10; 20; 10; 20; 10; 20] ∧
  Forall is_byte [10; 20; 10; 20; 10; 20].
Proof.
  apply (decompress_bytes_from_input sample_stream 6).
  - unfold sample_stream. byte_list.
  - reflexivity.
Defined.

End PgdMore.

(** ** PGD: the planar filter *)

(** Division and remainder of natural numbers, for [lia]. *)
From Stdlib Require Import ZifyNat.

Module Filter2Facts.
Import Filter2.

Ltac div_lia := zify; Z.to_euclidean_division_equations; lia.
Ltac div_nia := zify; Z.to_euclidean_division_equations; nia.

Lemma clamp_byte v : is_byte (clamp v).
Proof. unfold clamp, is_byte. repeat case_match; lia. Qed.

Lemma clamp_of_byte v : is_byte v → clamp v = v.
Proof. unfold clamp, is_byte. intros. repeat case_match; lia. Qed.

Lemma store_Some i v (out out' : list Z) :
  store i v out = Some out' → (i < length out)%nat ∧ out' = <[i := v]> out.
Proof. unfold store. destruct (Nat.ltb_spec i (length out)); [|done]. by intros [= <-]. Qed.

Lemma store_inside i v (out : list Z) :
  (i < length out)%nat → store i v out = Some (<[i := v]> out).
Proof. unfold store. intros. by destruct (Nat.ltb_spec i (length out)); [|lia]. Qed.

(** A loop whose body keeps an invariant, indexed by the number of
    iterations done, runs to its end. *)
Lemma for_each_Some {A S : Type} (body : S → A → option S) (I : nat → S → Prop)
    (xs : list A) (s : S) :
  I 0%nat s →
  (∀ k s x, (k < length xs)%nat → I k s → ∃ s', body s x = Some s' ∧ I (Datatypes.S k) s') →
  ∃ s', for_each body xs s = Some s' ∧ I (length xs) s'.
Proof.
  revert I s. induction xs as [|x xs IH]; intros I s H0 Hstep; simpl.
  - eauto.
  - destruct (Hstep 0%nat s x) as (s1 & -> & H1); [simpl; lia|done|]. simpl.
    apply (IH (λ k, I (Datatypes.S k))); [done|].
    intros k s2 y Hk Hs2. apply Hstep; [simpl; lia|done].
Qed.

(** Two loops whose bodies agree on the states that the invariant
    allows are the same loop. *)
Lemma for_each_agree {A S : Type} (body body' : S → A → option S)
    (I : nat → S → Prop) (xs : list A) (s : S) :
  I 0%nat s →
  (∀ k s x, (k < length xs)%nat → I k s →
     body' s x = body s x ∧ ∀ s', body s x = Some s' → I (Datatypes.S k) s') →
  for_each body' xs s = for_each body xs s.
Proof.
  revert I s. induction xs as [|x xs IH]; intros I s H0 Hstep; simpl; [done|].
  destruct (Hstep 0%nat s x) as [-> H1]; [simpl; lia|done|].
  destruct (body s x) as [s1|]; simpl; [|done].
  apply (IH (λ k, I (Datatypes.S k))); [by apply H1|].
  intros k s2 y Hk Hs2. apply Hstep; [simpl; lia|done].
Qed.

Lemma peek_inside outside (input : list Z) (i : nat) :
  (i < length input)%nat → Delta.peek outside input (Z.of_nat i) = input !!! i.
Proof.
  intros Hi. unfold Delta.peek.
  destruct (Z.leb_spec 0 (Z.of_nat i)); [|lia].
  destruct (Z.ltb_spec (Z.of_nat i) (Z.of_nat (length input))); [|lia].
  simpl. by rewrite Nat2Z.id.
Qed.

(** Pixels are numbered row by row. *)
Lemma pixel_row_inj (w x y x' y' : nat) :
  (x < w)%nat → (x' < w)%nat → (y * w + x = y' * w + x')%nat → y = y'.
Proof.
  intros Hx Hx' Heq.
  destruct (Nat.lt_trichotomy y y') as [Hlt|[->|Hlt]]; [|done|].
  - assert ((y + 1) * w ≤ y' * w)%nat by (apply Nat.mul_le_mono_r; lia). lia.
  - assert ((y' + 1) * w ≤ y * w)%nat by (apply Nat.mul_le_mono_r; lia). lia.
Qed.

(** The four pixels of block [k] of block row [m], for an even width. *)
Lemma block_pixels (hw m k x y : nat) :
  let w := (2 * hw)%nat in
  let p0 := (m * (2 * w) + 2 * k)%nat in
  let q := (y * w + x)%nat in
  (k < hw)%nat → (x < w)%nat →
  (q = p0 ∨ q = (p0 + 1)%nat ∨ q = (p0 + w)%nat ∨ q = (p0 + w + 1)%nat) ↔
  ((y = (2 * m)%nat ∨ y = (2 * m + 1)%nat) ∧ (x = (2 * k)%nat ∨ x = (2 * k + 1)%nat)).
Proof.
  intros w p0 q Hk Hx. subst p0 q. split.
  - intros Hq.
    assert (y = (2 * m)%nat ∨ y = (2 * m + 1)%nat) as Hy.
    { destruct Hq as [Hq|[Hq|[Hq|Hq]]].
      + left. apply (pixel_row_inj w x y (2 * k) (2 * m)); lia.
      + left. apply (pixel_row_inj w x y (2 * k + 1) (2 * m)); lia.
      + right. apply (pixel_row_inj w x y (2 * k) (2 * m + 1)); lia.
      + right. apply (pixel_row_inj w x y (2 * k + 1) (2 * m + 1)); lia. }
    split; [done|]. destruct Hy as [-> | ->]; lia.
  - intros [[-> | ->] [-> | ->]]; lia.
Qed.

Section Memory.
Variable outside : Z → Z.
Variable input : list Z.
Variable width : nat.

(** The three stores of one pixel. *)
Lemma write_pixel_Some vb vg vr c (out : list Z) index p :
  (output_ptr c + 3 * index = 3 * p)%nat →
  (3 * p + 2 < length out)%nat →
  ∃ out', write_pixel outside input vb vg vr c out index = Some out' ∧
    length out' = length out ∧
    (Forall is_byte out → Forall is_byte out') ∧
    ∀ q ch, (ch < 3)%nat →
      out' !! (3 * q + ch)%nat =
      if decide (q = p)
      then Some (clamp (Z.shiftr
             (Z.shiftl (byte_at outside input (plane3 c + index)) 7
              + match ch with 0%nat => vb | 1%nat => vg | _ => vr end) 7))
      else out !! (3 * q + ch)%nat.
Proof.
  intros Hp Hlen. unfold write_pixel.
  replace (output_ptr c + 3 * index + 0)%nat with (3 * p + 0)%nat by lia.
  replace (output_ptr c + 3 * index + 1)%nat with (3 * p + 1)%nat by lia.
  replace (output_ptr c + 3 * index + 2)%nat with (3 * p + 2)%nat by lia.
  rewrite store_inside by lia. simpl.
  rewrite store_inside by (rewrite length_insert; lia). simpl.
  rewrite store_inside by (rewrite !length_insert; lia).
  eexists. split; [done|]. split; [by rewrite !length_insert|]. split.
  - intros Hb. repeat apply Forall_insert; try done; apply clamp_byte.
  - intros q ch Hch. destruct (decide (q = p)) as [->|Hq].
    + destruct ch as [|[|[|?]]]; [| | |lia].
      * rewrite list_lookup_insert_ne by lia. rewrite list_lookup_insert_ne by lia.
        by rewrite list_lookup_insert_eq by lia.
      * rewrite list_lookup_insert_ne by lia.
        by rewrite list_lookup_insert_eq by (rewrite length_insert; lia).
      * by rewrite list_lookup_insert_eq by (rewrite !length_insert; lia).
    + by rewrite !list_lookup_insert_ne by lia.
Qed.

(** One 2x2 block: four pixels, at [p0], [p0 + 1], [p0 + width] and
    [p0 + width + 1] when [output_ptr] is at pixel [p0]. *)
Lemma block_Some c p0 :
  output_ptr c = (3 * p0)%nat →
  (3 * (p0 + width + 1) + 2 < length (output c))%nat →
  ∃ c', block outside input width c = Some c' ∧
    plane1 c' = (plane1 c + 1)%nat ∧ plane2 c' = (plane2 c + 1)%nat ∧
    plane3 c' = (plane3 c + 2)%nat ∧ output_ptr c' = (3 * (p0 + 2))%nat ∧
    length (output c') = length (output c) ∧
    (Forall is_byte (output c) → Forall is_byte (output c')) ∧
    ((2 ≤ width)%nat → ∀ q ch, (ch < 3)%nat →
      output c' !! (3 * q + ch)%nat =
      if decide (q = p0 ∨ q = (p0 + 1)%nat ∨ q = (p0 + width)%nat
                 ∨ q = (p0 + width + 1)%nat)
      then Some (clamp (Z.shiftr
             (Z.shiftl (byte_at outside input (plane3 c + (q - p0))) 7
              + chroma ch (s8 (byte_at outside input (plane1 c)))
                          (s8 (byte_at outside input (plane2 c)))) 7))
      else output c !! (3 * q + ch)%nat).
Proof.
  intros Hp Hlen. unfold block, indices. simpl for_each.
  set (vb := 226 * _). set (vg := _ - _). set (vr := 179 * _).
  destruct (write_pixel_Some vb vg vr c (output c) 0 p0)
    as (o1 & -> & Hl1 & Hb1 & Hq1); [lia|lia|]. cbn [mbind option_bind].
  destruct (write_pixel_Some vb vg vr c o1 1 (p0 + 1))
    as (o2 & -> & Hl2 & Hb2 & Hq2); [lia|lia|]. cbn [mbind option_bind].
  destruct (write_pixel_Some vb vg vr c o2 width (p0 + width))
    as (o3 & -> & Hl3 & Hb3 & Hq3); [lia|lia|]. cbn [mbind option_bind].
  destruct (write_pixel_Some vb vg vr c o3 (width + 1) (p0 + width + 1))
    as (o4 & -> & Hl4 & Hb4 & Hq4); [lia|lia|]. cbn [mbind option_bind].
  eexists. split; [done|]. cbn [plane1 plane2 plane3 output_ptr output].
  repeat split; try lia; [auto|].
  intros Hw q ch Hch.
  rewrite Hq4, Hq3, Hq2, Hq1 by done.
  destruct (decide (q = (p0 + width + 1)%nat)) as [->|?].
  { rewrite decide_True by lia. by replace (p0 + width + 1 - p0)%nat with (width + 1)%nat by lia. }
  destruct (decide (q = (p0 + width)%nat)) as [->|?].
  { rewrite decide_True by lia. by replace (p0 + width - p0)%nat with width by lia. }
  destruct (decide (q = (p0 + 1)%nat)) as [->|?].
  { rewrite decide_True by lia. by replace (p0 + 1 - p0)%nat with 1%nat by lia. }
  destruct (decide (q = p0)) as [->|?].
  { rewrite decide_True by lia. by replace (p0 - p0)%nat with 0%nat by lia. }
  by rewrite decide_False by lia.
Qed.

(** A block whose six reads are inside [input] does not depend on the
    memory around it. *)
Lemma block_agree outside' c :
  (plane1 c < length input)%nat → (plane2 c < length input)%nat →
  (plane3 c + width + 1 < length input)%nat →
  block outside' input width c = block outside input width c.
Proof.
  intros H1 H2 H3. unfold block, indices, for_each, write_pixel, byte_at.
  rewrite !(peek_inside outside') by lia.
  by rewrite !(peek_inside outside) by lia.
Qed.

Lemma upsampled_eq height x y ch i1 i2 i3 :
  i1 = (0 * (width * height / 4) + (y / 2 * (width / 2) + x / 2))%nat →
  i2 = (1 * (width * height / 4) + (y / 2 * (width / 2) + x / 2))%nat →
  i3 = (2 * (width * height / 4) + y * width + x)%nat →
  clamp (Z.shiftr (Z.shiftl (byte_at outside input i3) 7
                   + chroma ch (s8 (byte_at outside input i1))
                               (s8 (byte_at outside input i2))) 7)
  = upsampled outside input width height x y ch.
Proof. by intros -> -> ->. Qed.

Lemma block_row_bound height m :
  (m < height / 2)%nat →
  ((m + 1) * (2 * (width / 2) + width) ≤ height * width)%nat.
Proof.
  intros Hm.
  assert ((m + 1) * (2 * (width / 2) + width) ≤ height / 2 * (2 * (width / 2) + width))%nat
    by (apply Nat.mul_le_mono_r; lia).
  assert (height / 2 * (2 * (width / 2) + width) ≤ height / 2 * (2 * width))%nat
    by (apply Nat.mul_le_mono_l; div_lia).
  assert (height / 2 * (2 * width) = (height / 2 * 2) * width)%nat by lia.
  assert (height / 2 * 2 * width ≤ height * width)%nat
    by (apply Nat.mul_le_mono_r; div_lia).
  lia.
Qed.

Lemma chroma_bound height m k :
  (m < height / 2)%nat → (k < width / 2)%nat →
  (m * (width / 2) + k < width * height / 4)%nat.
Proof.
  intros Hm Hk.
  assert ((m + 1) * (width / 2) ≤ height / 2 * (width / 2))%nat
    by (apply Nat.mul_le_mono_r; lia).
  assert (height / 2 * (width / 2) ≤ width * height / 4)%nat; [|lia].
  apply Nat.div_le_lower_bound; [lia|].
  assert (4 * (height / 2 * (width / 2)) = (height / 2 * 2) * (width / 2 * 2))%nat as -> by lia.
  rewrite (Nat.mul_comm width height). apply Nat.mul_le_mono; div_lia.
Qed.

(** Block [k] of block row [m]. *)
Lemma block_at outside' height m k c :
  cursor_at width height m k c → (m < height / 2)%nat → (k < width / 2)%nat →
  ∃ c', block outside input width c = Some c' ∧
    cursor_at width height m (k + 1) c' ∧
    (Forall is_byte (output c) → Forall is_byte (output c')) ∧
    (Nat.even width = true → ∀ x y ch, (x < width)%nat → (ch < 3)%nat →
       output c' !! (3 * (y * width + x) + ch)%nat =
       if decide ((y = (2 * m)%nat ∨ y = (2 * m + 1)%nat)
                  ∧ (x = (2 * k)%nat ∨ x = (2 * k + 1)%nat))
       then Some (upsampled outside input width height x y ch)
       else output c !! (3 * (y * width + x) + ch)%nat) ∧
    ((2 * (width * height / 4) + width * height ≤ length input)%nat →
       block outside' input width c = block outside input width c).
Proof.
  intros (Hp1 & Hp2 & Hp3 & Hptr & Hlen) Hm Hk.
  pose proof (block_row_bound height m Hm) as Hrow.
  pose proof (chroma_bound height m k Hm Hk) as Hchroma.
  set (rs := (2 * (width / 2) + width)%nat) in *.
  assert (2 * k + 2 ≤ 2 * (width / 2))%nat as Hk2 by lia.
  destruct (block_Some c (m * rs + 2 * k))
    as (c' & Hc' & Hq1 & Hq2 & Hq3 & Hqptr & Hql & Hqb & Hqlook); [done|lia|].
  exists c'. split; [done|]. split; [|split; [done|split]].
  - unfold cursor_at. fold rs. rewrite Hq1, Hq2, Hq3, Hqptr, Hql, Hp1, Hp2, Hp3.
    split_and!; lia.
  - intros Heven x y ch Hx Hch.
    apply Nat.even_spec in Heven as [hw Hw].
    assert (width / 2 = hw)%nat as Hhalf by div_lia.
    assert (rs = 2 * width)%nat as Hrs by lia.
    rewrite Hqlook by (done || lia).
    pose proof (block_pixels hw m k x y) as Hpix. cbv zeta in Hpix.
    rewrite <- Hw in Hpix. specialize (Hpix ltac:(lia) Hx).
    rewrite Hrs. destruct (decide (_ ∨ _)) as [Hin|Hout].
    + rewrite decide_True by (by apply Hpix). f_equal.
      apply Hpix in Hin as [Hy Hx'].
      assert (y / 2 = m)%nat as Hy2 by div_lia.
      assert (x / 2 = k)%nat as Hx2 by div_lia.
      assert (m * (2 * width) + 2 * k ≤ y * width + x)%nat
        by (destruct Hy as [-> | ->]; lia).
      apply upsampled_eq; rewrite ?Hy2, ?Hx2, ?Hp1, ?Hp2, ?Hp3, ?Hrs; lia.
    + rewrite decide_False; [done|]. intros Hin. by apply Hout, Hpix.
  - intros Hinput. apply block_agree; lia.
Qed.

(** The loop over [x]: the blocks of block row [m]. *)
Lemma blocks_at outside' height m c0 (xs : list nat) :
  cursor_at width height m 0 c0 → (m < height / 2)%nat →
  (length xs ≤ width / 2)%nat →
  (∃ c', for_each (λ c _, block outside input width c) xs c0 = Some c' ∧
     cursor_at width height m (length xs) c' ∧
     (Forall is_byte (output c0) → Forall is_byte (output c')) ∧
     (Nat.even width = true → ∀ x y ch, (x < width)%nat → (ch < 3)%nat →
        output c' !! (3 * (y * width + x) + ch)%nat =
        if decide ((y = (2 * m)%nat ∨ y = (2 * m + 1)%nat) ∧ (x < 2 * length xs)%nat)
        then Some (upsampled outside input width height x y ch)
        else output c0 !! (3 * (y * width + x) + ch)%nat)) ∧
  ((2 * (width * height / 4) + width * height ≤ length input)%nat →
     for_each (λ c _, block outside' input width c) xs c0
     = for_each (λ c _, block outside input width c) xs c0).
Proof.
  intros Hc0 Hm Hxs. split.
  - set (I := λ (k : nat) (c' : cursor),
      cursor_at width height m k c' ∧
      (Forall is_byte (output c0) → Forall is_byte (output c')) ∧
      (Nat.even width = true → ∀ x y ch, (x < width)%nat → (ch < 3)%nat →
         output c' !! (3 * (y * width + x) + ch)%nat =
         if decide ((y = (2 * m)%nat ∨ y = (2 * m + 1)%nat) ∧ (x < 2 * k)%nat)
         then Some (upsampled outside input width height x y ch)
         else output c0 !! (3 * (y * width + x) + ch)%nat)).
    apply (for_each_Some (λ c (_ : nat), block outside input width c) I); unfold I.
    + split; [done|]. split; [done|]. intros _ x y ch _ _.
      by rewrite decide_False by lia.
    + intros k s _ Hk (Hs & Hbytes & Hlook).
      destruct (block_at outside' height m k s) as (s' & Hs' & Hat & Hb & Hl & _);
        [done|done|lia|].
      exists s'. split; [done|]. replace (S k) with (k + 1)%nat by lia.
      split; [done|]. split; [auto|].
      intros Heven x y ch Hx Hch. rewrite Hl, Hlook by done.
      repeat case_decide; try done; lia.
  - intros Hinput.
    apply (for_each_agree _ _ (λ k c', cursor_at width height m k c' ∧ (k ≤ length xs)%nat));
      [split; [done|lia]|].
    intros k s _ Hk [Hs _].
    destruct (block_at outside' height m k s) as (s' & Hs' & Hat & _ & _ & Hagree);
      [done|done|lia|].
    split; [by apply Hagree|]. rewrite Hs'. intros ? [= <-].
    replace (S k) with (k + 1)%nat by lia. split; [done|lia].
Qed.

(** The body of the loop over [y]: block row [m]. *)
Lemma block_row_at outside' height m c :
  cursor_at width height m 0 c → (m < height / 2)%nat →
  ∃ c', block_row outside input width c = Some c' ∧
    cursor_at width height (m + 1) 0 c' ∧
    (Forall is_byte (output c) → Forall is_byte (output c')) ∧
    (Nat.even width = true → ∀ x y ch, (x < width)%nat → (ch < 3)%nat →
       output c' !! (3 * (y * width + x) + ch)%nat =
       if decide (y = (2 * m)%nat ∨ y = (2 * m + 1)%nat)
       then Some (upsampled outside input width height x y ch)
       else output c !! (3 * (y * width + x) + ch)%nat) ∧
    ((2 * (width * height / 4) + width * height ≤ length input)%nat →
       block_row outside' input width c = block_row outside input width c).
Proof.
  intros Hc Hm.
  destruct (blocks_at outside' height m c (Delta.range 0 (width / 2)))
    as [(c1 & Hc1 & Hat & Hb & Hl) Hagree]; [done|done|..].
  { unfold Delta.range. rewrite length_seq. lia. }
  unfold Delta.range in Hat, Hl. rewrite length_seq, Nat.sub_0_r in Hat, Hl.
  unfold block_row. rewrite Hc1. cbn [mbind option_bind].
  eexists. split; [done|]. cbn [plane1 plane2 plane3 output_ptr output].
  destruct Hat as (H1 & H2 & H3 & H4 & H5). split_and!.
  - unfold cursor_at. cbn [plane1 plane2 plane3 output_ptr output].
    rewrite H1, H2, H3, H4, H5. split_and!; lia.
  - done.
  - intros Heven x y ch Hx Hch. rewrite Hl by done.
    apply Nat.even_spec in Heven as [hw Hw].
    assert (width / 2 = hw)%nat as -> by div_lia.
    repeat case_decide; try done; lia.
  - intros Hinput. by rewrite Hagree, Hc1.
Qed.

(** The loop over [y]. *)
Lemma block_rows_at outside' height c0 (ys : list nat) :
  cursor_at width height 0 0 c0 → (length ys ≤ height / 2)%nat →
  (∃ c', for_each (λ c _, block_row outside input width c) ys c0 = Some c' ∧
     cursor_at width height (length ys) 0 c' ∧
     (Forall is_byte (output c0) → Forall is_byte (output c')) ∧
     (Nat.even width = true → ∀ x y ch, (x < width)%nat → (ch < 3)%nat →
        output c' !! (3 * (y * width + x) + ch)%nat =
        if decide (y < 2 * length ys)%nat
        then Some (upsampled outside input width height x y ch)
        else output c0 !! (3 * (y * width + x) + ch)%nat)) ∧
  ((2 * (width * height / 4) + width * height ≤ length input)%nat →
     for_each (λ c _, block_row outside' input width c) ys c0
     = for_each (λ c _, block_row outside input width c) ys c0).
Proof.
  intros Hc0 Hys. split.
  - set (I := λ (m : nat) (c' : cursor),
      cursor_at width height m 0 c' ∧
      (Forall is_byte (output c0) → Forall is_byte (output c')) ∧
      (Nat.even width = true → ∀ x y ch, (x < width)%nat → (ch < 3)%nat →
         output c' !! (3 * (y * width + x) + ch)%nat =
         if decide (y < 2 * m)%nat
         then Some (upsampled outside input width height x y ch)
         else output c0 !! (3 * (y * width + x) + ch)%nat)).
    apply (for_each_Some (λ c (_ : nat), block_row outside input width c) I); unfold I.
    + split; [done|]. split; [done|]. intros _ x y ch _ _.
      by rewrite decide_False by lia.
    + intros m s _ Hm (Hs & Hbytes & Hlook).
      destruct (block_row_at outside' height m s) as (s' & Hs' & Hat & Hb & Hl & _);
        [done|lia|].
      exists s'. split; [done|]. replace (S m) with (m + 1)%nat by lia.
      split; [done|]. split; [auto|].
      intros Heven x y ch Hx Hch. rewrite Hl, Hlook by done.
      repeat case_decide; try done; lia.
  - intros Hinput.
    apply (for_each_agree _ _ (λ m c', cursor_at width height m 0 c' ∧ (m ≤ length ys)%nat));
      [split; [done|lia]|].
    intros m s _ Hm [Hs _].
    destruct (block_row_at outside' height m s) as (s' & Hs' & Hat & _ & _ & Hagree);
      [done|lia|].
    split; [by apply Hagree|]. rewrite Hs'. intros ? [= <-].
    replace (S m) with (m + 1)%nat by lia. split; [done|lia].
Qed.

End Memory.

Lemma cursor_at_start width height :
  let block_size := (width * height / 4)%nat in
  cursor_at width height 0 0
    (mkCursor (0 * block_size) (1 * block_size) (2 * block_size) 0
       (Pgd.bstr_sized (height * (width * 3)))).
Proof.
  unfold cursor_at, Pgd.bstr_sized. cbn [plane1 plane2 plane3 output_ptr output].
  rewrite length_replicate. split_and!; lia.
Qed.




Example apply_filter_2_sample outside :
  apply_filter_2 outside sample_planes 2 2
  = Some [128; 105; 77; 138; 115; 87; 148; 125; 97; 158; 135; 107].
Proof. reflexivity. Qed.

(** Four bytes of input for the same image: the chroma samples are read
    inside the buffer, the luma samples past its end. *)
Example apply_filter_2_short_input :
  apply_filter_2 (λ _, 0) [16; 240; 100; 110] 2 2
  ≠ apply_filter_2 (λ _, 255) [16; 240; 100; 110] 2 2.
Proof. by vm_compute. Qed.



End Filter2Facts.

(** ** ACD: the pixel code *)

Module AcdFacts.
Import BitReader AcdPixels.

Lemma get_1_unread r b rest :
  unread r = b :: rest →
  get 1 r = Ok (Z.b2z b, mk (buffer r) (pos r + 1)) ∧
  unread (mk (buffer r) (pos r + 1)) = rest.
Proof.
  intros Hr. unfold get. rewrite Hr. simpl. split; [done|].
  unfold unread in *. simpl. by rewrite <- drop_drop, Hr.
Qed.

Lemma get_1_eof r : unread r = [] → get 1 r = Throw EofError.
Proof. intros Hr. unfold get. by rewrite Hr. Qed.

Lemma get_1_outcome r :
  (∃ b, get 1 r = Ok (Z.b2z b, mk (buffer r) (pos r + 1))) ∨ get 1 r = Throw EofError.
Proof.
  destruct (unread r) as [|b rest] eqn:Hr.
  - right. by apply get_1_eof.
  - left. exists b. by apply get_1_unread in Hr as [-> _].
Qed.

Lemma b2z_range (b : bool) : 0 ≤ Z.b2z b ≤ 1.
Proof. destruct b; simpl; lia. Qed.

Lemma lor_shiftl_bit (byte : Z) (b : bool) :
  0 ≤ byte → Z.lor (Z.shiftl byte 1) (Z.b2z b) = 2 * byte + Z.b2z b.
Proof.
  intros Hbyte. destruct byte as [|p|p]; [by destruct b| |lia].
  destruct b; reflexivity.
Qed.

Lemma bit_8 (x : Z) :
  0 ≤ x < 512 → (Z.land (Z.shiftr x 8) 1 =? 0) = (x <? 256).
Proof.
  intros Hx. rewrite Z.shiftr_div_pow2 by lia. change (2 ^ 8) with 256.
  destruct (Z.ltb_spec x 256).
  - by rewrite Z.div_small by lia.
  - replace (x / 256) with 1; [done|]. apply Z.div_unique with (x - 256); lia.
Qed.

Lemma land_0xFF (x : Z) : Z.land x 0xFF = x mod 256.
Proof. change 0xFF with (Z.ones 8). by rewrite Z.land_ones by lia. Qed.

(** One turn of the inner loop. *)
Lemma read_level_step fuel byte r (b : bool) r' :
  0 ≤ byte < 256 → get 1 r = Ok (Z.b2z b, r') →
  read_level (S fuel) byte r =
  if 2 * byte + Z.b2z b <? 256
  then read_level fuel (2 * byte + Z.b2z b) r'
  else Ok (2 * byte + Z.b2z b - 256, r').
Proof.
  intros Hbyte Hget. pose proof (b2z_range b).
  cbn [read_level]. rewrite Hget. cbn [mbind result_bind].
  rewrite lor_shiftl_bit, bit_8, land_0xFF by lia.
  destruct (Z.ltb_spec (2 * byte + Z.b2z b) 256).
  - by rewrite Z.mod_small by lia.
  - do 2 f_equal. symmetry. apply Z.mod_unique with 1; lia.
Qed.

(** While no 1 has reached bit 8 the loop shifts the bits it reads into
    [byte]. *)
Lemma read_level_shift bits : ∀ fuel byte r rest,
  unread r = bits ++ rest → 0 ≤ byte →
  fold_left (λ acc (b : bool), 2 * acc + Z.b2z b) bits byte < 256 →
  read_level (length bits + fuel) byte r
  = read_level fuel (fold_left (λ acc (b : bool), 2 * acc + Z.b2z b) bits byte)
      (mk (buffer r) (pos r + length bits)) ∧
  unread (mk (buffer r) (pos r + length bits)) = rest.
Proof.
  induction bits as [|b bits IH]; intros fuel byte r rest Hr Hbyte Hlt.
  - simpl. rewrite Nat.add_0_r. split; [by destruct r|]. by destruct r.
  - simpl in Hr, Hlt. destruct (get_1_unread _ _ _ Hr) as [Hget Hr1].
    pose proof (b2z_range b).
    assert (∀ bs acc, 0 ≤ acc →
              acc ≤ fold_left (λ acc (b : bool), 2 * acc + Z.b2z b) bs acc) as Hmono.
    { clear. induction bs as [|b' bs IH]; intros acc Hacc; simpl; [lia|].
      pose proof (b2z_range b'). specialize (IH (2 * acc + Z.b2z b')). lia. }
    pose proof (Hmono bits (2 * byte + Z.b2z b) ltac:(lia)).
    change (length (b :: bits) + fuel)%nat with (S (length bits + fuel)).
    rewrite (read_level_step (length bits + fuel) byte r b _ ltac:(lia) Hget).
    destruct (Z.ltb_spec (2 * byte + Z.b2z b) 256); [|lia].
    destruct (IH fuel (2 * byte + Z.b2z b) _ rest Hr1) as [-> Hrest]; [lia|done|].
    simpl in *. replace (pos r + 1 + length bits)%nat with (pos r + S (length bits))%nat
      in * by lia. done.
Qed.

(** The inner loop reads seven bits: started from [byte = 2] it leaves
    with their value, and never runs for an eighth time. *)
Lemma read_level_bits r b6 b5 b4 b3 b2 b1 b0 rest :
  unread r = [b6; b5; b4; b3; b2; b1; b0] ++ rest →
  read_level 8 2 r = Ok (value [b6; b5; b4; b3; b2; b1; b0], mk (buffer r) (pos r + 7)) ∧
  unread (mk (buffer r) (pos r + 7)) = rest.
Proof.
  intros Hr.
  pose proof (b2z_range b6). pose proof (b2z_range b5). pose proof (b2z_range b4).
  pose proof (b2z_range b3). pose proof (b2z_range b2). pose proof (b2z_range b1).
  pose proof (b2z_range b0).
  destruct (read_level_shift [b6; b5; b4; b3; b2; b1] 2 2 r (b0 :: rest))
    as [Hrun Hr6]; [done|lia|cbn [fold_left]; lia|].
  destruct (get_1_unread _ _ _ Hr6) as [Hget Hr7]. cbn [buffer pos length] in *.
  replace (pos r + 6 + 1)%nat with (pos r + 7)%nat in * by lia.
  split; [|done].
  change (read_level 8 2 r) with (read_level (6 + 2) 2 r). rewrite Hrun.
  cbn [fold_left].
  rewrite (read_level_step 1 _ _ b0 _) by (lia || exact Hget).
  destruct (Z.ltb_spec
    (2 * (2 * (2 * (2 * (2 * (2 * (2 * 2 + Z.b2z b6) + Z.b2z b5) + Z.b2z b4)
     + Z.b2z b3) + Z.b2z b2) + Z.b2z b1) + Z.b2z b0) 256); [lia|].
  do 2 f_equal. unfold value. cbn [fold_left]. lia.
Qed.

(** With fewer than seven bits left the inner loop ends on the end of
    the input. *)
Lemma read_level_eof r :
  (length (unread r) < 7)%nat → read_level 8 2 r = Throw EofError.
Proof.
  intros Hlen.
  assert (∀ bs acc, 0 ≤ acc →
            fold_left (λ acc (b : bool), 2 * acc + Z.b2z b) bs acc
            < (acc + 1) * 2 ^ Z.of_nat (length bs)) as Hbound.
  { clear. induction bs as [|b' bs IH]; intros acc Hacc.
    - simpl. lia.
    - cbn [fold_left length]. pose proof (b2z_range b').
      specialize (IH (2 * acc + Z.b2z b') ltac:(lia)).
      rewrite Nat2Z.inj_succ, Z.pow_succ_r by lia. nia. }
  pose proof (Hbound (unread r) 2 ltac:(lia)) as Hlt.
  assert (2 ^ Z.of_nat (length (unread r)) ≤ 2 ^ 6)
    by (apply Z.pow_le_mono_r; lia).
  destruct (read_level_shift (unread r) (8 - length (unread r)) 2 r [])
    as [Hrun Hrest]; [by rewrite app_nil_r|lia|lia|].
  replace (length (unread r) + (8 - length (unread r)))%nat with 8%nat in Hrun by lia.
  rewrite Hrun. destruct (8 - length (unread r))%nat as [|fuel] eqn:Hfuel; [lia|].
  cbn [read_level]. by rewrite (get_1_eof _ Hrest).
Qed.

Lemma value_level (v : Z) :
  0 ≤ v < 128 → value (map (λ k, Z.testbit v k) [6; 5; 4; 3; 2; 1; 0]) = v.
Proof.
  intros Hv. destruct v as [|p|p]; [reflexivity| |lia].
  do 8 (destruct p as [p|p|]; try reflexivity; try lia).
Qed.

(** One pixel: the code word at the cursor is read to its last bit and
    gives its pixel value. *)
Lemma read_pixel_code r s rest :
  valid s → unread r = code s ++ rest →
  ∃ byte, read_pixel r = Ok (byte, mk (buffer r) (pos r + length (code s))) ∧
          u8 byte = pixel s ∧
          unread (mk (buffer r) (pos r + length (code s))) = rest.
Proof.
  intros Hs Hr. unfold read_pixel. destruct s as [| |v]; cbn [code app map] in Hr.
  - destruct (get_1_unread _ _ _ Hr) as [-> Hr1]. simpl. eauto.
  - destruct (get_1_unread _ _ _ Hr) as [-> Hr1]. cbn [mbind result_bind Z.b2z].
    destruct (get_1_unread _ _ _ Hr1) as [-> Hr2]. simpl in *.
    replace (pos r + 1 + 1)%nat with (pos r + 2)%nat in * by lia. eauto.
  - destruct (get_1_unread _ _ _ Hr) as [-> Hr1]. cbn [mbind result_bind Z.b2z].
    destruct (get_1_unread _ _ _ Hr1) as [-> Hr2]. cbn [mbind result_bind Z.b2z].
    change (negb (1 =? 0)) with true. change (0 =? 0) with true.
    change (0 - 1 + 3) with 2. cbn match.
    destruct (read_level_bits _ _ _ _ _ _ _ _ _ Hr2) as [-> Hr3].
    cbn [mbind result_bind buffer pos length code app map] in *.
    replace (pos r + 1 + 1 + 7)%nat with (pos r + 9)%nat in * by lia.
    pose proof (value_level v Hs) as Hv. cbn [map] in Hv.
    exists (scale v). rewrite Hv. done.
Qed.

Lemma unread_length r n :
  (n ≤ length (unread r))%nat → ∃ bits rest, unread r = bits ++ rest ∧ length bits = n.
Proof.
  intros Hn. exists (take n (unread r)), (drop n (unread r)).
  rewrite take_drop, length_take. split; [done|lia].
Qed.

(** A pixel is read, or the input ends inside its code word. *)
Lemma read_pixel_outcome r :
  (∃ byte r', read_pixel r = Ok (byte, r')) ∨ read_pixel r = Throw EofError.
Proof.
  unfold read_pixel.
  destruct (get_1_outcome r) as [[b1 ->]| ->]; [|by right]. cbn [mbind result_bind].
  destruct b1; [|left; simpl; eauto]. change (negb (Z.b2z true =? 0)) with true.
  cbn match.
  destruct (get_1_outcome (mk (buffer r) (pos r + 1))) as [[b2 ->]| ->]; [|by right].
  cbn [mbind result_bind]. destruct b2; [left; simpl; eauto|].
  change (Z.b2z false =? 0) with true. change (0 - 1 + 3) with 2. cbn match.
  set (r2 := mk _ _).
  destruct (Nat.lt_ge_cases (length (unread r2)) 7) as [Hlt|Hge].
  - right. by rewrite read_level_eof.
  - left. destruct (unread_length r2 7 Hge) as (bits & rest & Hr2 & Hlen).
    destruct bits as [|b6 [|b5 [|b4 [|b3 [|b2 [|b1 [|b0 [|]]]]]]]]; try done.
    destruct (read_level_bits _ _ _ _ _ _ _ _ _ Hr2) as [-> _]. simpl. eauto.
Qed.

(** The outer loop writes one byte per turn: it ends with the canvas
    full, or on the end of the input. *)
Lemma loop_outcome fuel st :
  (length (output st) - output_ptr st ≤ fuel)%nat →
  (∃ st', loop fuel st = Ok st' ∧ length (output st') = length (output st) ∧
          (Forall is_byte (output st) → Forall is_byte (output st'))) ∨
  loop fuel st = Throw EofError.
Proof.
  revert st. induction fuel as [|fuel IH]; intros st Hfuel.
  - left. simpl. destruct (Nat.ltb_spec (output_ptr st) (length (output st))); [lia|].
    eauto.
  - simpl. destruct (Nat.ltb_spec (output_ptr st) (length (output st))); [|left; eauto].
    destruct (read_pixel_outcome (bit_reader st)) as [(byte & r' & ->)| ->];
      [|by right].
    cbn [mbind result_bind].
    destruct (IH (mkState r' (<[output_ptr st := u8 byte]> (output st))
                    (S (output_ptr st)))) as [(st' & -> & Hlen & Hbytes)| ->];
      [simpl; rewrite length_insert; lia| |by right].
    left. exists st'. split; [done|]. simpl in *. rewrite length_insert in Hlen.
    split; [done|]. intros Hb. apply Hbytes, Forall_insert; [done|apply DeltaFacts.u8_is_byte].
Qed.

(** The outer loop on a run of code words. *)
Lemma loop_symbols syms : ∀ fuel st written rest,
  Forall valid syms →
  unread (bit_reader st) = flat_map code syms ++ rest →
  output st = written ++ replicate (length syms) 0 →
  output_ptr st = length written →
  (length syms ≤ fuel)%nat →
  ∃ st', loop fuel st = Ok st' ∧ output st' = written ++ map pixel syms.
Proof.
  induction syms as [|s syms IH]; intros fuel st written rest Hvalid Hr Hout Hptr Hfuel.
  - simpl in Hout. rewrite app_nil_r in Hout. exists st.
    destruct fuel; simpl; rewrite Hptr, Hout, Nat.ltb_irrefl, ?app_nil_r; done.
  - apply Forall_cons_1 in Hvalid as [Hs Hvalid].
    destruct fuel as [|fuel]; [simpl in Hfuel; lia|]. simpl in Hr, Hfuel.
    rewrite <- app_assoc in Hr.
    destruct (read_pixel_code _ _ _ Hs Hr) as (byte & Hread & Hbyte & Hr').
    cbn [loop]. rewrite Hptr, Hout, length_app.
    cbn [length replicate].
    destruct (Nat.ltb_spec (length written) (length written + S (length (replicate (length syms) 0))));
      [|lia].
    rewrite Hread. cbn [mbind result_bind].
    destruct (IH fuel (mkState (mk (buffer (bit_reader st))
                                 (pos (bit_reader st) + length (code s)))
                         (<[length written := u8 byte]>
                            (written ++ 0 :: replicate (length syms) 0))
                         (S (length written)))
                (written ++ [pixel s]) rest) as (st' & -> & Hout');
      [done|done| | |lia|].
    + cbn [output]. rewrite insert_app_r_alt by lia. rewrite Nat.sub_diag. simpl.
      by rewrite Hbyte, <- app_assoc.
    + cbn [output_ptr]. rewrite length_app. simpl. lia.
    + exists st'. split; [done|]. rewrite Hout', <- app_assoc. done.
Qed.

(** X6: [do_decode] always ends, and in one of two ways: with a canvas
    of exactly [canvas_size] bytes, or with the [EofError] of the bit
    cursor when the input ends inside a code word.  The inner loop never
    runs for an eighth turn, and a canvas of size 0 is returned without
    a read. *)
Theorem do_decode_outcome (input : list Z) (canvas_size : nat) :
  ((∃ out, do_decode input canvas_size = Ok out ∧ length out = canvas_size ∧
           Forall is_byte out) ∨
   do_decode input canvas_size = Throw EofError) ∧
  do_decode input 0 = Ok [].
Proof.
  split; [|reflexivity]. unfold do_decode.
  destruct (loop_outcome canvas_size
              (mkState (mk input 0) (Pgd.bstr_sized canvas_size) 0))
    as [(st' & -> & Hlen & Hbytes)| ->]; [| |by right].
  - simpl. unfold Pgd.bstr_sized. rewrite length_replicate. lia.
  - left. exists (output st'). split; [done|]. simpl in *.
    unfold Pgd.bstr_sized in *. rewrite length_replicate in Hlen. split; [done|].
    apply Hbytes, Forall_replicate. byte_range.
Qed.

(** X7: [do_decode] reads a prefix code.  When the bits of the input
    are the code words of a list of symbols, whatever bits follow them,
    the canvas of as many bytes holds their pixel values: the bit 0 gives
    0, the bits 11 give 255, and the bits 10 with a level of seven bits
    give the scaled level. *)
Theorem do_decode_symbols (syms : list symbol) (input : list Z) (rest : list bool) :
  Forall valid syms →
  bits_of input = flat_map code syms ++ rest →
  do_decode input (length syms) = Ok (map pixel syms).
Proof.
  intros Hvalid Hbits. unfold do_decode.
  destruct (loop_symbols syms (length syms)
              (mkState (mk input 0) (Pgd.bstr_sized (length syms)) 0) [] rest)
    as (st' & -> & Hout); [done|done|done|done|lia|].
  simpl. by rewrite Hout.
Qed.

(** X8: the level of a code word is a percentage.  The levels 1 to 99
    give [(level + 1) * 255 / 100], rounded down, so that 99 gives 255:
    the top byte of the 32-bit product by [0x28CCCCD], which wraps around
    from level 50 on, is that quotient. *)
Theorem level_is_percentage (v : Z) :
  1 ≤ v < 100 → pixel (Level v) = (v + 1) * 255 / 100.
Proof.
  intros Hv. destruct v as [|p|p]; [lia| |lia].
  do 8 (destruct p as [p|p|]; try reflexivity; try lia).
Qed.

Example do_decode_sample :
  do_decode sample_input 4 = Ok [127; 0; 255; 255].
Proof. reflexivity. Qed.

Example do_decode_truncated :
  do_decode [0x98] 1 = Throw EofError.
Proof. reflexivity. Qed.

Lemma do_decode_symbols_witness :
  Forall valid sample_symbols ∧
  bits_of sample_input = flat_map code sample_symbols ++ [false; false; false] ∧
  do_decode sample_input (length sample_symbols) = Ok (map pixel sample_symbols).
Proof.
  assert (Forall valid sample_symbols) as Hvalid
    by (repeat constructor; simpl; lia).
  split; [exact Hvalid|]. split; [reflexivity|].
  apply (do_decode_symbols sample_symbols sample_input [false; false; false]);
    [exact Hvalid|reflexivity].
Defined.

Lemma level_is_percentage_witness :
  1 ≤ 49 < 100 ∧ pixel (Level 49) = (49 + 1) * 255 / 100.
Proof. split; [lia|]. apply (level_is_percentage 49). lia. Defined.

End AcdFacts.
